(** * Burrow execution core: overlay cache, proposal cache, bond context, transactor

    A shallow embedding of

    - [storage.KVCache] (the in-memory overlay with tombstones and range
      iteration),
    - [proposal.Cache] (the write-back proposal cache and its [Sync]),
    - [contexts.BondContext.Execute], and
    - [execution.Transactor] ([MaybeSignTxMempool], [SignTxMempool],
      [CheckTxSync], [BroadcastTxSync]),

    together with the properties the design document states about them.

    Conventions.  A Go [[]byte] is a [list byte]; a slice that may be [nil]
    and whose nil-ness the code observes is an [option].  A Go [map] is a
    [gmap]; Go's unspecified [range] order over a map is an arbitrary
    enumeration of the keys, quantified over in the statements.  A Go
    [error] result is the [Err] summand of [result].  Unsigned 64-bit
    integers are [Z] with the wrap-around written out. *)

From Stdlib Require Import ZArith Lia List Sorting.Sorted.
From Stdlib Require Import Strings.Byte.
From stdpp Require Import base tactics option list sorting countable strings gmap.

Local Open Scope Z_scope.

(** ** Bytes and [bytes.Compare] *)

Abbreviation byte := Byte.byte.
Abbreviation bytes := (list Byte.byte).

Module Bytes.

#[global] Instance byte_eq_dec : EqDecision byte.
Proof.
  intros a b. destruct (N.eq_dec (Byte.to_N a) (Byte.to_N b)) as [E|E].
  - left. apply (f_equal Byte.of_N) in E. rewrite !Byte.of_to_N in E. congruence.
  - right. congruence.
Defined.

#[global] Program Instance byte_countable : Countable byte :=
  inj_countable Byte.to_N Byte.of_N _.
Next Obligation. intros b. apply Byte.of_to_N. Qed.

(** The unsigned value of a byte, as [bytes.Compare] orders them. *)
Definition val (b : byte) : Z := Z.of_N (Byte.to_N b).

(** [bytes.Compare(a, b)]: -1, 0 or 1 by lexicographic order of the
    unsigned bytes; a proper prefix is smaller. *)
Fixpoint Compare (a b : bytes) : Z :=
  match a, b with
  | [], [] => 0
  | [], _ :: _ => -1
  | _ :: _, [] => 1
  | x :: a', y :: b' =>
      if val x <? val y then -1
      else if val y <? val x then 1
      else Compare a' b'
  end.

Definition lt (a b : bytes) : Prop := Compare a b = -1.
Definition le (a b : bytes) : Prop := Compare a b ≠ 1.

#[global] Instance lt_dec a b : Decision (lt a b).
Proof. unfold lt. apply _. Defined.
#[global] Instance le_dec a b : Decision (le a b).
Proof. unfold le. apply _. Defined.

End Bytes.

(** ** Results of fallible calls *)

(** A Go call returning [(T, error)]: either the value or the error.
    [Panic] is a run-time panic (nil dereference, index out of range). *)
Inductive result (E A : Type) : Type :=
  | Ok (a : A)
  | Err (e : E)
  | Panic.
Arguments Ok {E A} a.
Arguments Err {E A} e.
Arguments Panic {E A}.

Definition is_Err {E A} (r : result E A) : bool :=
  match r with Err _ => true | _ => false end.

(** ** [sort.Sort] / [sort.Stable] through the [Less] of [sort.Interface]

    Go's [sort] package is driven only by [Len], [Less] and [Swap].  It is
    embedded as a stable insertion sort on the list, comparing with the
    collection's [Less]. *)

Section Sort.
Context {A : Type} (less : A → A → bool).

Fixpoint insert_by (x : A) (l : list A) : list A :=
  match l with
  | [] => [x]
  | y :: l' => if less y x then y :: insert_by x l' else x :: y :: l'
  end.

Fixpoint sort_by (l : list A) : list A :=
  match l with
  | [] => []
  | x :: l' => insert_by x (sort_by l')
  end.

(** [x] is not after [y]: [Less(y, x)] is false. *)
Definition not_after (x y : A) : Prop := less y x = false.

End Sort.

(** The byte-slice [Less] shared by [byteSlices] and [ProposalHashArray]:
    [bytes.Compare(a, b) == -1]. *)
Definition bytes_less (a b : bytes) : bool := bool_decide (Bytes.Compare a b = -1).

(** ** [storage.KVCache] *)

Module KVCache.

(** [valueInfo]: the value (a [[]byte], [nil] when absent or deleted) and
    the tombstone. *)
Record valueInfo := ValueInfo { value : option bytes; deleted : bool }.

(** The zero [valueInfo], which Go's map read gives for a missing key. *)
Definition zeroInfo : valueInfo := {| value := None; deleted := false |}.

(** [KVCache]: the map, keyed by [string(key)], and the sidecar slice of
    keys.  The locks are left out: every method holds the cache lock for
    its whole body, so methods run one at a time.  A key is its bytes: a
    nil key and an empty key are the same [string(key)] and compare equal
    under [bytes.Compare].  [keys] holds the slices the callers passed in;
    callers are taken not to write to a key after passing it. *)
Record KVCache := MkKVCache { cache : gmap bytes valueInfo; keys : list bytes }.

Definition NewKVCache : KVCache := {| cache := ∅; keys := [] |}.

Definition Info (kvc : KVCache) (key : bytes) : option bytes * bool :=
  let vi := default zeroInfo (cache kvc !! key) in
  (value vi, deleted vi).

Definition Get (kvc : KVCache) (key : bytes) : option bytes :=
  value (default zeroInfo (cache kvc !! key)).

Definition Has (kvc : KVCache) (key : bytes) : bool :=
  match cache kvc !! key with
  | Some vi => negb (deleted vi)
  | None => false
  end.

(** [Set]: on the first [Set]/[Delete] of a key it is appended to [keys];
    then [deleted] is cleared and the value stored. *)
Definition Set_ (kvc : KVCache) (key : bytes) (val : option bytes) : KVCache :=
  let keys' :=
    match cache kvc !! key with
    | Some _ => keys kvc
    | None => keys kvc ++ [key]
    end in
  {| cache := <[key := {| value := val; deleted := false |}]> (cache kvc);
     keys := keys' |}.

(** [Delete]: same bookkeeping, then the tombstone is set and the value
    cleared. *)
Definition Delete (kvc : KVCache) (key : bytes) : KVCache :=
  let keys' :=
    match cache kvc !! key with
    | Some _ => keys kvc
    | None => keys kvc ++ [key]
    end in
  {| cache := <[key := {| value := None; deleted := true |}]> (cache kvc);
     keys := keys' |}.

(** [Reset]: a new empty map is allocated; [keys] is not assigned. *)
Definition Reset (kvc : KVCache) : KVCache :=
  {| cache := ∅; keys := keys kvc |}.

(** Modelled from the spec: [storage.NormaliseDomain] and
    [storage.CompareKeys] are not among the sources.  The design document
    says that [NormaliseDomain] "coerces nil low to empty and nil high to an
    open-ended sentinel" and that the range is half-open in
    byte-lexicographic order.  A domain end is an [option bytes], [None]
    being Go's [nil]; after normalisation [None] is the open-ended
    sentinel, above every key. *)
Definition NormaliseDomain (low high : option bytes) : option bytes * option bytes :=
  (Some (default [] low), high).

Definition CompareKeys (k : bytes) (bound : option bytes) : Z :=
  match bound with
  | None => -1
  | Some b => Bytes.Compare k b
  end.

(** First loop of [sortedKeysInDomain]: the index of the first key with
    [CompareKeys(key, low) != -1], else the initial [startIndex]. *)
Fixpoint seekStart (low : option bytes) (i : nat) (l : list bytes) (startIndex : nat) : nat :=
  match l with
  | [] => startIndex
  | key :: l' =>
      if bool_decide (CompareKeys key low ≠ -1) then i
      else seekStart low (S i) l' startIndex
  end.

(** Second loop: reslice to [sortedKeys[:i]] at the first key with
    [CompareKeys(key, high) != -1], else leave the slice as it is. *)
Fixpoint seekEnd (high : option bytes) (i : nat) (l : list bytes) : option nat :=
  match l with
  | [] => None
  | key :: l' =>
      if bool_decide (CompareKeys key high ≠ -1) then Some i
      else seekEnd high (S i) l'
  end.

(** [sortedKeysInDomain] sorts [kvc.keys] in place and returns the
    sub-slice in the domain; the sorted [keys] stay in the cache. *)
Definition sortedKeysInDomain (kvc : KVCache) (low high : option bytes)
  : list bytes * KVCache :=
  let sorted := sort_by bytes_less (keys kvc) in
  let kvc' := {| cache := cache kvc; keys := sorted |} in
  let startIndex := seekStart low 0 sorted (length sorted) in
  let sortedKeys := drop startIndex sorted in
  let sortedKeys :=
    match seekEnd high 0 sortedKeys with
    | Some i => take i sortedKeys
    | None => sortedKeys
    end in
  (sortedKeys, kvc').

(** [KVCacheIterator].  [it_cache] and [it_keys] are the map and the
    sub-slice at the time of creation; the Go iterator shares both with
    the cache, so it is read here before the cache is written again. *)
Record KVCacheIterator := MkIterator {
  it_cache : gmap bytes valueInfo;
  it_start : option bytes;
  it_end : option bytes;
  it_keys : list bytes;
  keyIndex : Z;
  reverse : bool
}.

Definition newIterator (kvc : KVCache) (start end_ : option bytes) (rev : bool)
  : KVCacheIterator * KVCache :=
  let '(ks, kvc') := sortedKeysInDomain kvc start end_ in
  ({| it_cache := cache kvc'; it_start := start; it_end := end_;
      it_keys := ks; keyIndex := 0; reverse := rev |}, kvc').

Definition Iterator (kvc : KVCache) (low high : option bytes) : KVCacheIterator * KVCache :=
  let '(low, high) := NormaliseDomain low high in
  newIterator kvc low high false.

Definition ReverseIterator (kvc : KVCache) (low high : option bytes)
  : KVCacheIterator * KVCache :=
  let '(low, high) := NormaliseDomain low high in
  newIterator kvc low high true.

Definition sliceIndex (kvi : KVCacheIterator) : Z :=
  if reverse kvi then Z.of_nat (length (it_keys kvi)) - 1 - keyIndex kvi
  else keyIndex kvi.

(** Indexing a slice; out of range is a run-time panic, here [None]. *)
Definition index {A} (l : list A) (i : Z) : option A :=
  if 0 <=? i then l !! Z.to_nat i else None.

Definition Valid (kvi : KVCacheIterator) : bool :=
  keyIndex kvi <? Z.of_nat (length (it_keys kvi)).

Definition Key (kvi : KVCacheIterator) : option bytes :=
  index (it_keys kvi) (sliceIndex kvi).

Definition Value (kvi : KVCacheIterator) : option (option bytes) :=
  key ← index (it_keys kvi) (sliceIndex kvi);
  Some (value (default zeroInfo (it_cache kvi !! key))).

(** [Next] panics on an invalid iterator. *)
Definition Next (kvi : KVCacheIterator) : option KVCacheIterator :=
  if Valid kvi then
    Some {| it_cache := it_cache kvi; it_start := it_start kvi; it_end := it_end kvi;
            it_keys := it_keys kvi; keyIndex := keyIndex kvi + 1;
            reverse := reverse kvi |}
  else None.

(** The consumer loop [for ; it.Valid(); it.Next() { ... it.Key() ... }]:
    the keys seen, and whether the loop has ended ([true]) or the fuel ran
    out first ([false]). *)
Fixpoint iterate (fuel : nat) (kvi : KVCacheIterator) : list bytes * bool :=
  if Valid kvi then
    match fuel with
    | O => ([], false)
    | S fuel' =>
        match Key kvi, Next kvi with
        | Some k, Some kvi' =>
            let '(ks, fin) := iterate fuel' kvi' in (k :: ks, fin)
        | _, _ => ([], false)
        end
    end
  else ([], true).

(** The mutations of the overlay, as data. *)
Inductive Op :=
  | OpSet (key : bytes) (val : option bytes)
  | OpDelete (key : bytes).

Definition op_key (o : Op) : bytes :=
  match o with OpSet k _ => k | OpDelete k => k end.

Definition apply (kvc : KVCache) (o : Op) : KVCache :=
  match o with
  | OpSet k v => Set_ kvc k v
  | OpDelete k => Delete kvc k
  end.

Definition run (kvc : KVCache) (ops : list Op) : KVCache := foldl apply kvc ops.

(** The key index lists every key of the map once.  [NewKVCache] has it,
    [Set] and [Delete] keep it; [Reset] does not. *)
Definition index_ok (kvc : KVCache) : Prop :=
  NoDup (keys kvc) ∧ ∀ k, k ∈ keys kvc ↔ is_Some (cache kvc !! k).

(** A key lies in the half-open range [[low, high)]: a nil [low] is no
    lower bound, a nil [high] no upper bound. *)
Definition InDomain (low high : option bytes) (k : bytes) : Prop :=
  Bytes.le (default [] low) k ∧
  match high with
  | None => True
  | Some h => Bytes.lt k h
  end.

#[global] Instance InDomain_dec low high k : Decision (InDomain low high k).
Proof. unfold InDomain. destruct high; apply _. Defined.

Definition from_low (low : option bytes) (k : bytes) : Prop := CompareKeys k low ≠ -1.
Definition below_high (high : option bytes) (k : bytes) : Prop := CompareKeys k high = -1.

#[global] Instance from_low_dec low k : Decision (from_low low k).
Proof. unfold from_low. apply _. Defined.
#[global] Instance below_high_dec high k : Decision (below_high high k).
Proof. unfold below_high. apply _. Defined.

End KVCache.

(** ** [proposal.Cache] *)

Module Proposal.

(** [ProposalHash] is [[sha256.Size]byte]: thirty-two bytes. *)
Definition sha256_Size : nat := 32.

(** The errors of this package: the two made by the cache, and whatever a
    backend or an output writer returns. *)
Inductive error :=
  | ErrUpdateRemoved (proposalHash : bytes)
  | ErrRemoveRemoved (proposalHash : bytes)
  | ErrExternal (msg : string).

(** [var hash ProposalHash; copy(hash[:], proposalHash)]: the first
    thirty-two bytes, zero-filled when there are fewer. *)
Definition toProposalHash (proposalHash : bytes) : bytes :=
  take sha256_Size proposalHash
    ++ replicate (sha256_Size - length proposalHash) "000"%byte.

(** [ProposalHashArray.Less]; [None] is the [panic] of the default case. *)
Definition Less (p q : bytes) : option bool :=
  match Bytes.Compare p q with
  | -1 => Some true
  | 0 | 1 => Some false
  | _ => None
  end.

Definition hash_less (p q : bytes) : bool := default false (Less p q).

Section Cache.

(** [payload.Ballot]; a [*payload.Ballot] is an [option Ballot]. *)
Context {Ballot : Type}.

(** The [Reader] interface.  A reader may change on a read, as a [Cache]
    used as backend does, so the reader is passed on. *)
Class Reader (R : Type) := {
  reader_GetProposal : R → bytes → R * result error (option Ballot)
}.

(** The [Writer] interface. *)
Class Writer (W : Type) := {
  writer_UpdateProposal : W → bytes → option Ballot → W * result error unit;
  writer_RemoveProposal : W → bytes → W * result error unit
}.

Record proposalInfo := ProposalInfo {
  ballot : option Ballot;
  removed : bool;
  updated : bool
}.

Record Cache (R : Type) := MkCache {
  backend : R;
  proposals : gmap bytes proposalInfo
}.
Arguments MkCache {R} _ _.
Arguments backend {R} _.
Arguments proposals {R} _.

Context {R : Type} `{!Reader R}.

Definition NewCache (backend : R) : Cache R :=
  {| backend := backend; proposals := ∅ |}.

(** [get]: the entry of the hash, created from the backend when the map
    has none.  The Go code returns a pointer into the map; here the entry
    is returned by value and callers store their change under the same
    hash. *)
Definition get (cache : Cache R) (proposalHash : bytes)
  : Cache R * result error proposalInfo :=
  let hash := toProposalHash proposalHash in
  match proposals cache !! hash with
  | Some propInfo => (cache, Ok propInfo)
  | None =>
      let '(backend', r) := reader_GetProposal (backend cache) proposalHash in
      match r with
      | Ok prop =>
          let propInfo := {| ballot := prop; removed := false; updated := false |} in
          ({| backend := backend'; proposals := <[hash := propInfo]> (proposals cache) |},
           Ok propInfo)
      | Err e => ({| backend := backend'; proposals := proposals cache |}, Err e)
      | Panic => ({| backend := backend'; proposals := proposals cache |}, Panic)
      end
  end.

Definition GetProposal (cache : Cache R) (proposalHash : bytes)
  : Cache R * result error (option Ballot) :=
  let '(cache, r) := get cache proposalHash in
  match r with
  | Ok proposalInfo =>
      if removed proposalInfo then (cache, Ok None)
      else (cache, Ok (ballot proposalInfo))
  | Err e => (cache, Err e)
  | Panic => (cache, Panic)
  end.

Definition UpdateProposal (cache : Cache R) (proposalHash : bytes) (b : option Ballot)
  : Cache R * result error unit :=
  let '(cache, r) := get cache proposalHash in
  match r with
  | Ok proposalInfo =>
      if removed proposalInfo then (cache, Err (ErrUpdateRemoved proposalHash))
      else
        ({| backend := backend cache;
            proposals := <[toProposalHash proposalHash :=
                             {| ballot := b; removed := removed proposalInfo;
                                updated := true |}]> (proposals cache) |},
         Ok tt)
  | Err e => (cache, Err e)
  | Panic => (cache, Panic)
  end.

Definition RemoveProposal (cache : Cache R) (proposalHash : bytes)
  : Cache R * result error unit :=
  let '(cache, r) := get cache proposalHash in
  match r with
  | Ok proposalInfo =>
      if removed proposalInfo then (cache, Err (ErrRemoveRemoved proposalHash))
      else
        ({| backend := backend cache;
            proposals := <[toProposalHash proposalHash :=
                             {| ballot := ballot proposalInfo; removed := true;
                                updated := updated proposalInfo |}]> (proposals cache) |},
         Ok tt)
  | Err e => (cache, Err e)
  | Panic => (cache, Panic)
  end.

(** [var _ Writer = &Cache{}], and a [Cache] can be a backend. *)
#[export] Instance Cache_Writer : Writer (Cache R) :=
  {| writer_UpdateProposal := UpdateProposal; writer_RemoveProposal := RemoveProposal |}.

#[export] Instance Cache_Reader : Reader (Cache R) :=
  {| reader_GetProposal := GetProposal |}.

(** [Reset]: a new generation over the given backend. *)
Definition Reset (cache : Cache R) (backend : R) : Cache R :=
  {| backend := backend; proposals := ∅ |}.

Definition Backend (cache : Cache R) : R := backend cache.

(** The loop of [Sync] over the sorted hashes.  An entry missing from the
    map would be a nil pointer. *)
Fixpoint syncLoop {W} `{!Writer W} (cache : Cache R) (hashes : list bytes) (state : W)
  : W * result error unit :=
  match hashes with
  | [] => (state, Ok tt)
  | hash :: hashes' =>
      match proposals cache !! hash with
      | None => (state, Panic)
      | Some proposalInfo =>
          if removed proposalInfo then
            match writer_RemoveProposal state hash with
            | (state', Ok _) => syncLoop cache hashes' state'
            | (state', r) => (state', r)
            end
          else if updated proposalInfo then
            match writer_UpdateProposal state hash (ballot proposalInfo) with
            | (state', Ok _) => syncLoop cache hashes' state'
            | (state', r) => (state', r)
            end
          else syncLoop cache hashes' state
      end
  end.

(** [Sync].  [range] is the order in which [for hash := range
    cache.proposals] happens to enumerate the keys of the map: Go leaves it
    unspecified.  The hashes are then sorted by [sort.Stable]. *)
Definition Sync {W} `{!Writer W} (cache : Cache R) (range : list bytes) (state : W)
  : W * result error unit :=
  let hashes := sort_by hash_less range in
  syncLoop cache hashes state.

(** [range] is a possible enumeration of the keys of the map: each key
    once. *)
Definition is_range (cache : Cache R) (range : list bytes) : Prop :=
  range ≡ₚ (map_to_list (proposals cache)).*1.

#[global] Instance is_range_dec cache range : Decision (is_range cache range).
Proof. unfold is_range. apply _. Defined.

(** The calls on an output writer, as data. *)
Inductive Call :=
  | CallUpdateProposal (proposalHash : bytes) (b : option Ballot)
  | CallRemoveProposal (proposalHash : bytes).

(** A writer that notes every call made on it before passing it on. *)
Record Recorder (W : Type) := MkRecorder { rec_inner : W; rec_calls : list Call }.
Arguments MkRecorder {W} _ _.
Arguments rec_inner {W} _.
Arguments rec_calls {W} _.

#[export] Instance Recorder_Writer {W} `{!Writer W} : Writer (Recorder W) := {|
  writer_UpdateProposal r h b :=
    let '(w', e) := writer_UpdateProposal (rec_inner r) h b in
    ({| rec_inner := w'; rec_calls := rec_calls r ++ [CallUpdateProposal h b] |}, e);
  writer_RemoveProposal r h :=
    let '(w', e) := writer_RemoveProposal (rec_inner r) h in
    ({| rec_inner := w'; rec_calls := rec_calls r ++ [CallRemoveProposal h] |}, e)
|}.

Definition perform_call {W} `{!Writer W} (state : W) (c : Call) : W * result error unit :=
  match c with
  | CallUpdateProposal h b => writer_UpdateProposal state h b
  | CallRemoveProposal h => writer_RemoveProposal state h
  end.

(** Making a list of calls in order, stopping at the first one that does
    not return nil. *)
Fixpoint perform {W} `{!Writer W} (state : W) (calls : list Call) : W * result error unit :=
  match calls with
  | [] => (state, Ok tt)
  | c :: calls' =>
      match perform_call state c with
      | (state', Ok _) => perform state' calls'
      | (state', r) => (state', r)
      end
  end.

(** The calls of such a run that are made: all up to and including the
    first that does not return nil. *)
Fixpoint attempted {W} `{!Writer W} (state : W) (calls : list Call) : list Call :=
  match calls with
  | [] => []
  | c :: calls' =>
      match perform_call state c with
      | (state', Ok _) => c :: attempted state' calls'
      | (_, _) => [c]
      end
  end.

(** What the design document asks [Sync] to write for one hash: a
    removal if the entry is marked removed, else an update if it is marked
    updated, else nothing. *)
Definition write_of (cache : Cache R) (hash : bytes) : option Call :=
  match proposals cache !! hash with
  | Some proposalInfo =>
      if removed proposalInfo then Some (CallRemoveProposal hash)
      else if updated proposalInfo then
        Some (CallUpdateProposal hash (ballot proposalInfo))
      else None
  | None => None
  end.

(** The mutations and reads of a cache generation, as data. *)
Inductive CacheOp :=
  | OpGetProposal (proposalHash : bytes)
  | OpUpdateProposal (proposalHash : bytes) (b : option Ballot)
  | OpRemoveProposal (proposalHash : bytes).

Definition applyOp (cache : Cache R) (o : CacheOp) : Cache R :=
  match o with
  | OpGetProposal h => (GetProposal cache h).1
  | OpUpdateProposal h b => (UpdateProposal cache h b).1
  | OpRemoveProposal h => (RemoveProposal cache h).1
  end.

Definition runOps (cache : Cache R) (ops : list CacheOp) : Cache R :=
  foldl applyOp cache ops.

(** The entry of [hash] is there and marked removed. *)
Definition removed_at (cache : Cache R) (hash : bytes) : Prop :=
  ∃ info, proposals cache !! hash = Some info ∧ removed info = true.

End Cache.

Arguments MkCache {Ballot R} _ _.
Arguments backend {Ballot R} _.
Arguments proposals {Ballot R} _.
Arguments MkRecorder {Ballot W} _ _.
Arguments rec_inner {Ballot W} _.
Arguments rec_calls {Ballot W} _.
Arguments Cache : clear implicits.
Arguments Recorder : clear implicits.
Arguments proposalInfo : clear implicits.
Arguments Call : clear implicits.
Arguments CacheOp : clear implicits.
Arguments Reader : clear implicits.
Arguments Writer : clear implicits.

(** Collaborators for running the cache: a backend holding no proposal,
    an output that accepts every call, and an output that accepts a given
    number of calls and rejects the rest. *)
Module Run.

Inductive EmptyBackend := emptyBackend.

#[export] Instance EmptyBackend_Reader {Ballot} : Reader Ballot EmptyBackend :=
  {| reader_GetProposal r _ := (r, Ok None) |}.

Inductive NullWriter := nullWriter.

#[export] Instance NullWriter_Writer {Ballot} : Writer Ballot NullWriter := {|
  writer_UpdateProposal w _ _ := (w, Ok tt);
  writer_RemoveProposal w _ := (w, Ok tt)
|}.

Record QuotaWriter := { quota : nat }.

Definition quota_call (w : QuotaWriter) : QuotaWriter * result error unit :=
  match quota w with
  | O => (w, Err (ErrExternal "quota"))
  | S n => ({| quota := n |}, Ok tt)
  end.

#[export] Instance QuotaWriter_Writer {Ballot} : Writer Ballot QuotaWriter := {|
  writer_UpdateProposal w _ _ := quota_call w;
  writer_RemoveProposal w _ := quota_call w
|}.

(** Three proposals updated and one of them removed, as in the scenario
    of the design document. *)
Definition h1 : bytes := ["001"%byte].
Definition h2 : bytes := ["002"%byte].
Definition h3 : bytes := ["003"%byte; "007"%byte].

Definition scenario : Cache nat EmptyBackend :=
  runOps (NewCache emptyBackend)
    [OpUpdateProposal h3 (Some 3%nat); OpUpdateProposal h1 (Some 1%nat);
     OpUpdateProposal h2 (Some 2%nat); OpRemoveProposal h1].

(** The same entries, reached by another order of the mutations. *)
Definition scenario' : Cache nat EmptyBackend :=
  runOps (NewCache emptyBackend)
    [OpUpdateProposal h1 (Some 1%nat); OpUpdateProposal h2 (Some 2%nat);
     OpRemoveProposal h1; OpUpdateProposal h3 (Some 3%nat)].

End Run.

End Proposal.

(** ** [contexts.BondContext] *)

Module Bond.

Definition uint64_modulus : Z := 2 ^ 64.

(** An unsigned 64-bit value. *)
Definition is_uint64 (n : Z) : Prop := 0 ≤ n < uint64_modulus.

(** [a - b] on [uint64]. *)
Definition sub64 (a b : Z) : Z := (a - b) mod uint64_modulus.

Inductive CurveType := CurveTypeUnset | CurveTypeEd25519 | CurveTypeSecp256k1.

#[global] Instance CurveType_eq_dec : EqDecision CurveType.
Proof. solve_decision. Defined.

Record PublicKey := MkPublicKey { Curve : CurveType; Key : bytes }.

#[global] Instance PublicKey_eq_dec : EqDecision PublicKey.
Proof. solve_decision. Defined.

Definition GetCurveType (pk : PublicKey) : CurveType := Curve pk.

Abbreviation Address := bytes.

(** The part of [acm.Account] that the bond context reads and writes. *)
Record Account := MkAccount {
  Address_ : Address;
  PublicKey_ : PublicKey;
  Sequence : Z;
  Balance : Z
}.

(** [payload.TxInput] and [payload.BondTx]; [Input] is a pointer. *)
Record TxInput := MkTxInput { InputAddress : Address; Amount : Z; InputSequence : Z }.
Record BondTx := MkBondTx { Input : option TxInput }.

(** The generated getter is nil-safe. *)
Definition GetAmount (input : option TxInput) : Z :=
  match input with
  | Some i => Amount i
  | None => 0
  end.

(** [payload.Payload]: the bond payload, or one of another kind. *)
Inductive PayloadKind := KindCall | KindSend | KindName | KindPermission | KindGovernance
  | KindProposal | KindUnbond.
Inductive Payload :=
  | PayloadBondTx (tx : BondTx)
  | PayloadOther (kind : PayloadKind).

(** The errors [Execute] returns, by the [fmt.Errorf] that makes them;
    [ErrExternal] is an error handed up from the state or the validator
    set. *)
Inductive error :=
  | ErrPayloadMustBeBondTx
  | ErrSecp256k1NotSupported
  | ErrLacksBondPermission (a : Address)
  | ErrNothingToBond
  | ErrInsufficientFunds (a : Address) (balance amount : Z)
  | ErrSubtractFromBalance (a : Address) (amount : Z)
  | ErrExternal (msg : string).

(** [acmstate.ReaderWriter]: [GetAccount] gives a nil account for an
    address the state does not hold. *)
Class StateReaderWriter (S : Type) := {
  GetAccount : S → Address → result error (option Account);
  UpdateAccount : S → Account → S * result error unit
}.

(** [validator.ReaderWriter], seen through [validator.AddPower].

    Modelled from the spec: [validator.AddPower] and the validator set
    are not among the sources.  The design document has a validator
    "addressed by public key" with a "signed power (big integer)", and
    [AddPower] is to "add amount to validator power for account.publicKey
    in the validator set (creating an entry if new)". *)
Class ValidatorReaderWriter (V : Type) := {
  Power : V → PublicKey → Z;
  AddPower : V → PublicKey → Z → V * result error unit
}.

(** Modelled from the spec: [Account.SubtractFromBalance] is not among the
    sources.  The design document says "subtract amount from balance" and
    that the "balance never underflows". *)
Definition SubtractFromBalance (acc : Account) (amount : Z) : result error Account :=
  if Balance acc <? amount then Err (ErrSubtractFromBalance (Address_ acc) amount)
  else Ok {| Address_ := Address_ acc; PublicKey_ := PublicKey_ acc;
             Sequence := Sequence acc; Balance := sub64 (Balance acc) amount |}.

Section Execute.
Context {S V : Type} `{!StateReaderWriter S, !ValidatorReaderWriter V}.

(** [hasBondPermission(ctx.State, account, ctx.Logger)] is not among the
    sources; it is a parameter. *)
Variable hasBondPermission : S → Account → bool.

Record BondContext := MkBondContext {
  State : S;
  ValidatorSet : V;
  tx : option BondTx
}.

Definition set_tx (ctx : BondContext) (t : option BondTx) : BondContext :=
  {| State := State ctx; ValidatorSet := ValidatorSet ctx; tx := t |}.

(** [Execute(txe, p)]: the context after the call and the error
    returned.  [txe] is read only to print the first error.  [account] is
    the object [GetAccount] returned and [SubtractFromBalance] writes to
    it; the state sees the new balance when [UpdateAccount] stores it. *)
Definition Execute (ctx : BondContext) (p : Payload) : BondContext * result error unit :=
  match p with
  | PayloadOther _ => (set_tx ctx None, Err ErrPayloadMustBeBondTx)
  | PayloadBondTx btx =>
      let ctx := set_tx ctx (Some btx) in
      let power := GetAmount (Input btx) in
      match Input btx with
      | None => (ctx, Panic)
      | Some input =>
          match GetAccount (State ctx) (InputAddress input) with
          | Err e => (ctx, Err e)
          | Panic => (ctx, Panic)
          | Ok None => (ctx, Panic)
          | Ok (Some account) =>
              let ct := GetCurveType (PublicKey_ account) in
              if decide (ct = CurveTypeSecp256k1) then (ctx, Err ErrSecp256k1NotSupported)
              else if negb (hasBondPermission (State ctx) account) then
                (ctx, Err (ErrLacksBondPermission (Address_ account)))
              else
                let amount := GetAmount (Input btx) in
                if amount =? 0 then (ctx, Err ErrNothingToBond)
                else if Balance account <? amount then
                  (ctx, Err (ErrInsufficientFunds (Address_ account) (Balance account) amount))
                else
                  match SubtractFromBalance account amount with
                  | Err e => (ctx, Err e)
                  | Panic => (ctx, Panic)
                  | Ok account =>
                      match AddPower (ValidatorSet ctx) (PublicKey_ account) power with
                      | (vs, Err e) =>
                          ({| State := State ctx; ValidatorSet := vs; tx := tx ctx |}, Err e)
                      | (vs, Panic) =>
                          ({| State := State ctx; ValidatorSet := vs; tx := tx ctx |}, Panic)
                      | (vs, Ok _) =>
                          let '(st, r) := UpdateAccount (State ctx) account in
                          ({| State := st; ValidatorSet := vs; tx := tx ctx |}, r)
                      end
                  end
          end
      end
  end.

End Execute.

Arguments BondContext : clear implicits.
Arguments MkBondContext {S V} _ _ _.
Arguments State {S V} _.
Arguments ValidatorSet {S V} _.
Arguments tx {S V} _.

(** States and validator sets that do not fail: an account written is the
    account read back under its address and no other address changes; a
    power added shows on that key and on no other. *)
Class LawfulState (S : Type) `{!StateReaderWriter S} := {
  update_ok : ∀ s a, (UpdateAccount s a).2 = Ok tt;
  get_update : ∀ s a, GetAccount (UpdateAccount s a).1 (Address_ a) = Ok (Some a);
  get_update_ne : ∀ s a addr,
    addr ≠ Address_ a → GetAccount (UpdateAccount s a).1 addr = GetAccount s addr
}.

Class LawfulValidators (V : Type) `{!ValidatorReaderWriter V} := {
  add_ok : ∀ v pk p, (AddPower v pk p).2 = Ok tt;
  power_add : ∀ v pk p, Power (AddPower v pk p).1 pk = Power v pk + p;
  power_add_ne : ∀ v pk pk' p, pk' ≠ pk → Power (AddPower v pk p).1 pk' = Power v pk'
}.

(** In-memory collaborators: the state as a map from address to account,
    the validator set as a map from public key to power, a key without an
    entry having power zero. *)
Module Memory.

#[global] Instance PublicKey_countable : Countable PublicKey.
Proof.
  apply (inj_countable'
    (λ pk, (match Curve pk with
            | CurveTypeUnset => 0 | CurveTypeEd25519 => 1 | CurveTypeSecp256k1 => 2
            end%nat, Key pk))
    (λ p, {| Curve := match p.1 with
                      | 0 => CurveTypeUnset | 1 => CurveTypeEd25519 | _ => CurveTypeSecp256k1
                      end%nat;
             Key := p.2 |})).
  by intros [[] k].
Defined.

Abbreviation MemoryState := (gmap Address Account).
Abbreviation MemoryValidators := (gmap PublicKey Z).

#[export] Instance MemoryState_ReaderWriter : StateReaderWriter MemoryState := {|
  GetAccount s addr := Ok (s !! addr);
  UpdateAccount s acc := (<[Address_ acc := acc]> s, Ok tt)
|}.

#[export] Instance MemoryValidators_ReaderWriter : ValidatorReaderWriter MemoryValidators := {|
  Power v pk := default 0 (v !! pk);
  AddPower v pk p := (<[pk := default 0 (v !! pk) + p]> v, Ok tt)
|}.

(** Permissions are outside this slice of the account: in the memory runs
    the bond permission is granted by address. *)
Definition hasBondPermissionOf (granted : list Address) (s : MemoryState) (acc : Account) : bool :=
  bool_decide (Address_ acc ∈ granted).

(** The accounts of the two scenarios of the design document. *)
Definition pubA : PublicKey := {| Curve := CurveTypeEd25519; Key := ["A"%byte] |}.
Definition addrA : Address := ["a"%byte].

Definition accountA (balance : Z) : Account :=
  {| Address_ := addrA; PublicKey_ := pubA; Sequence := 0; Balance := balance |}.

Definition ctxA (balance : Z) : BondContext MemoryState MemoryValidators :=
  {| State := {[ addrA := accountA balance ]}; ValidatorSet := ∅; tx := None |}.

Definition bondA (amount : Z) : Payload :=
  PayloadBondTx {| Input := Some {| InputAddress := addrA; Amount := amount;
                                     InputSequence := 1 |} |}.

End Memory.

End Bond.

(** ** [execution.Transactor] *)

Module Transactor.

Abbreviation Address := bytes.

(** [acm.SigningAccount]: what a signer is known by here. *)
Record SigningAccount := MkSigningAccount { sa_Address : Address; sa_Sequence : Z }.

Record TxInput := MkTxInput { InputAddress : Address; Amount : Z; Sequence : Z }.

Record Signatory := MkSignatory {
  sig_Address : Address;
  sig_PublicKey : bytes;
  sig_Signature : bytes
}.

(** [txs.Tx]: the chain id, the inputs of the payload ([GetInputs]), the
    rest of the payload, and the cached hash. *)
Record Tx := MkTx {
  ChainID : string;
  Inputs : list TxInput;
  PayloadData : bytes;
  txHash : option bytes
}.

Record Envelope := MkEnvelope { Signatories : list Signatory; Tx_ : Tx }.

(** [errors.Exception] and [exec.TxExecution]. *)
Record Exception := MkException { Code : Z; ExceptionString : string }.

Record TxExecution := MkTxExecution {
  TxHash : bytes;
  Height : Z;
  Result : bytes;
  Exception_ : option Exception
}.

Record Receipt := MkReceipt { ReceiptTxHash : bytes }.

Record ResponseCheckTx := MkResponseCheckTx {
  ResponseCode : Z;
  ResponseData : bytes;
  ResponseLog : string
}.

Definition TxExecutionSuccessCode : Z := 0.

Inductive error :=
  | ErrSigningTransaction (e : error)
  | ErrWaitingForCheckTx
  | ErrNoCheckTxResponse
  | ErrDeserialiseReceipt (e : error)
  | ErrTendermint (code : Z) (log : string)
  | ErrWaitingForTx (txHash : bytes)
  | ErrExceptionDuringExecution (callError : Exception)
  | ErrExternal (msg : string).

(** How a call ends: it returns a value and a nil error, it returns an
    error, or it never returns because it waits for a lock that is not
    released or for an event that does not come. *)
Inductive outcome (A : Type) :=
  | Returns (a : A)
  | Fails (e : error)
  | Blocks.
Arguments Returns {A} a.
Arguments Fails {A} e.
Arguments Blocks {A}.

(** What the calls act on: the envelope behind the [*txs.Envelope]
    pointer, the account locks that are held, the [sync.Once] cells
    allocated so far, and the calls made on collaborators. *)
Inductive Event :=
  | EvLock (a : Address)
  | EvUnlock (a : Address)
  | EvSign (signers : list SigningAccount)
  | EvRehash
  | EvSubscribe (txHash : bytes)
  | EvUnsubscribeAll
  | EvCheckTx (txBytes : bytes).

Record World := MkWorld {
  txEnv : Envelope;
  held : gset Address;
  onces : list bool;
  trace : list Event
}.

Definition M (A : Type) : Type := World → World * outcome A.

#[global] Instance M_ret : MRet M := λ A a w, (w, Returns a).
#[global] Instance M_bind : MBind M := λ A B k m w,
  match m w with
  | (w', Returns a) => k a w'
  | (w', Fails e) => (w', Fails e)
  | (w', Blocks) => (w', Blocks)
  end.

Definition fail {A} (e : error) : M A := λ w, (w, Fails e).
Definition lift {A} (r : error + A) : M A :=
  λ w, match r with inl e => (w, Fails e) | inr a => (w, Returns a) end.
Definition log (ev : Event) (w : World) : World :=
  {| txEnv := txEnv w; held := held w; onces := onces w; trace := trace w ++ [ev] |}.
Definition set_txEnv (env : Envelope) (w : World) : World :=
  {| txEnv := env; held := held w; onces := onces w; trace := trace w |}.
Definition set_held (h : gset Address) (w : World) : World :=
  {| txEnv := txEnv w; held := h; onces := onces w; trace := trace w |}.
Definition set_onces (o : list bool) (w : World) : World :=
  {| txEnv := txEnv w; held := held w; onces := o; trace := trace w |}.

(** [UnlockFunc]: a [func()]. *)
Definition UnlockFunc : Type := World → World.

Definition noop : UnlockFunc := λ w, w.

(** [once.Do(f)] on the cell [cell]. *)
Definition once_Do (cell : nat) (f : UnlockFunc) : UnlockFunc := λ w,
  match onces w !! cell with
  | Some false => f (set_onces (<[cell := true]> (onces w)) w)
  | _ => w
  end.

(** Modelled from the spec: [SequentialSigningAccount] and [Accounts] are
    not among the sources.  In the design document [Lock()] gives
    [(signingAccount, unlock)], it "blocks until exclusive ownership is
    acquired", and "the returned unlock is idempotent": each address has
    one lock, releasing it when it is not held changes nothing but is
    still a call.  [ssa_getter] is what the account store gives for the
    signing account once the lock is held. *)
Record SequentialSigningAccount := MkSSA {
  ssa_Address : Address;
  ssa_getter : error + SigningAccount
}.

Definition mutexUnlock (a : Address) : UnlockFunc := λ w,
  log (EvUnlock a) (set_held (held w ∖ {[a]}) w).

Definition Lock (ssa : SequentialSigningAccount) : M (SigningAccount * UnlockFunc) := λ w,
  if decide (ssa_Address ssa ∈ held w) then (w, Blocks)
  else
    let w := log (EvLock (ssa_Address ssa)) (set_held (held w ∪ {[ssa_Address ssa]}) w) in
    match ssa_getter ssa with
    | inl e => (mutexUnlock (ssa_Address ssa) w, Fails e)
    | inr sa => (w, Returns (sa, mutexUnlock (ssa_Address ssa)))
    end.

(** What the mempool does with the bytes handed to [checkTxAsync], as
    [CheckTxSyncRaw] sees it: the call returns an error; or the context is
    done before a response; or a response comes, with or without a
    [CheckTx] part; or nothing comes. *)
Inductive CheckTxEvent :=
  | CheckTxRefused (e : error)
  | CheckTxCtxDone
  | CheckTxResponse (r : option ResponseCheckTx)
  | CheckTxSilent.

(** What the last [select] of [BroadcastTxSync] sees. *)
Inductive CommitEvent :=
  | CommitCtxDone
  | CommitMessage (txe : TxExecution)
  | CommitSilent.

(** The [Transactor]: the mempool accounts, the emitter (whether
    [Subscribe] fails, and what comes on the subscription), the mempool
    and the encoder. *)
Record Transactor := MkTransactor {
  MempoolAccounts : Address → error + (error + SigningAccount);
  Emitter_Subscribe : option error;
  Emitter_out : CommitEvent;
  checkTxAsync : bytes → CheckTxEvent;
  txEncoder : Envelope → error + bytes
}.

Section Transactor.

(** Parts of the [txs], [exec] and [errors] packages that are not among
    the sources: signing of an envelope, the hash of a transaction and its
    recomputation, validation, decoding of a receipt, and the code of a
    revert. *)
Variable Envelope_Sign : Envelope → list SigningAccount → Envelope * option error.
Variable Tx_Hash : Tx → bytes.
Variable Tx_Rehash : Tx → Tx.
Variable Envelope_Validate : Envelope → option error.
Variable DecodeReceipt : bytes → error + Receipt.
Variable ExecutionReverted : Z.

(** Modelled from the spec: [TxExecution.CallError] is not among the
    sources.  The design document gives a [TxExecution] an "optional
    exception"; the call error is that exception, nil when there is none,
    and its code is the code of the exception. *)
Definition CallError (txe : TxExecution) : option Exception := Exception_ txe.
Definition ErrorCode (callError : Exception) : Z := Code callError.

Definition uint64_succ (n : Z) : Z := (n + 1) mod 2 ^ 64.

(** [input.Sequence = ...] on the [i]-th input of the envelope. *)
Definition set_input_sequence (i : nat) (seq : Z) (env : Envelope) : Envelope :=
  {| Signatories := Signatories env;
     Tx_ := {| ChainID := ChainID (Tx_ env);
               Inputs := alter (λ input, {| InputAddress := InputAddress input;
                                            Amount := Amount input;
                                            Sequence := seq |}) i (Inputs (Tx_ env));
               PayloadData := PayloadData (Tx_ env);
               txHash := txHash (Tx_ env) |} |}.

Definition assign_sequence (i : nat) (seq : Z) : M unit := λ w,
  (set_txEnv (set_input_sequence i seq (txEnv w)) w, Returns tt).

(** [txEnv.Tx.GetInputs()]. *)
Definition GetInputs : M (list TxInput) := λ w, (w, Returns (Inputs (Tx_ (txEnv w)))).

(** [txEnv.Sign(signers...)]. *)
Definition Sign (signers : list SigningAccount) : M unit := λ w,
  let '(env, err) := Envelope_Sign (txEnv w) signers in
  let w := log (EvSign signers) (set_txEnv env w) in
  match err with
  | Some e => (w, Fails e)
  | None => (w, Returns tt)
  end.

(** [txEnv.Tx.Hash()]. *)
Definition Hash : M bytes := λ w, (w, Returns (Tx_Hash (Tx_ (txEnv w)))).

(** [txEnv.Validate()]. *)
Definition Validate : M unit := λ w,
  match Envelope_Validate (txEnv w) with
  | Some e => (w, Fails e)
  | None => (w, Returns tt)
  end.

(** [trans.txEncoder.EncodeTx(txEnv)]. *)
Definition EncodeTx (trans : Transactor) : M bytes := λ w,
  lift (txEncoder trans (txEnv w)) w.

(** [trans.MempoolAccounts.SequentialSigningAccount(address)]. *)
Definition SequentialSigningAccountOf (trans : Transactor) (address : Address)
  : M SequentialSigningAccount :=
  match MempoolAccounts trans address with
  | inl e => fail e
  | inr getter => mret {| ssa_Address := address; ssa_getter := getter |}
  end.

(** The loop of [SignTxMempool] from input [i] on. *)
Fixpoint lockInputs (trans : Transactor) (i : nat) (inputs : list TxInput)
  : M (list SigningAccount * list UnlockFunc) :=
  match inputs with
  | [] => mret ([], [])
  | input :: inputs' =>
      ssa ← SequentialSigningAccountOf trans (InputAddress input);
      '(sa, unlock) ← Lock ssa;
      _ ← assign_sequence i (uint64_succ (sa_Sequence sa));
      '(signers, unlockers) ← lockInputs trans (S i) inputs';
      mret (sa :: signers, unlock :: unlockers)
  end.

(** The [UnlockFunc] that [SignTxMempool] returns: each unlocker is
    deferred in turn, so they run last first. *)
Definition unlockAll (unlockers : list UnlockFunc) : UnlockFunc := λ w,
  foldl (λ w unlock, unlock w) w (reverse unlockers).

Definition SignTxMempool (trans : Transactor) : M UnlockFunc :=
  inputs ← GetInputs;
  '(signers, unlockers) ← lockInputs trans 0 inputs;
  _ ← Sign signers;
  mret (unlockAll unlockers).

Definition Rehash : M unit := λ w,
  let env := txEnv w in
  (log EvRehash
     (set_txEnv {| Signatories := Signatories env; Tx_ := Tx_Rehash (Tx_ env) |} w),
   Returns tt).

Definition MaybeSignTxMempool (trans : Transactor) : M UnlockFunc := λ w,
  if (length (Signatories (txEnv w)) =? 0)%nat then
    match SignTxMempool trans w with
    | (w, Returns unlock) =>
        let '(w, _) := Rehash w in
        let cell := length (onces w) in
        (set_onces (onces w ++ [false]) w, Returns (once_Do cell unlock))
    | (w, Fails e) => (w, Fails (ErrSigningTransaction e))
    | (w, Blocks) => (w, Blocks)
    end
  else (w, Returns noop).

Definition CheckTxAsyncRaw (trans : Transactor) (txBytes : bytes) : M CheckTxEvent := λ w,
  (log (EvCheckTx txBytes) w, Returns (checkTxAsync trans txBytes)).

Definition CheckTxSyncRaw (trans : Transactor) (txBytes : bytes) : M Receipt :=
  ev ← CheckTxAsyncRaw trans txBytes;
  match ev with
  | CheckTxRefused e => fail e
  | CheckTxCtxDone => fail ErrWaitingForCheckTx
  | CheckTxSilent => λ w, (w, Blocks)
  | CheckTxResponse None => fail ErrNoCheckTxResponse
  | CheckTxResponse (Some checkTxResponse) =>
      if ResponseCode checkTxResponse =? TxExecutionSuccessCode then
        match DecodeReceipt (ResponseData checkTxResponse) with
        | inl e => fail (ErrDeserialiseReceipt e)
        | inr receipt => mret receipt
        end
      else fail (ErrTendermint (ResponseCode checkTxResponse) (ResponseLog checkTxResponse))
  end.

(** [defer f()]: [f] runs when the body returns, with or without an
    error. *)
Definition deferring {A} (f : UnlockFunc) (body : M A) : M A := λ w,
  match body w with
  | (w, Blocks) => (w, Blocks)
  | (w, r) => (f w, r)
  end.

(** [x, err := m]: the error is a value. *)
Definition attempt {A} (m : M A) : M (error + A) := λ w,
  match m w with
  | (w, Returns a) => (w, Returns (inr a))
  | (w, Fails e) => (w, Returns (inl e))
  | (w, Blocks) => (w, Blocks)
  end.

(** [f()]. *)
Definition call (f : UnlockFunc) : M unit := λ w, (f w, Returns tt).

Definition CheckTxSync (trans : Transactor) : M Receipt :=
  unlock ← MaybeSignTxMempool trans;
  deferring unlock (
    _ ← Validate;
    txBytes ← EncodeTx trans;
    CheckTxSyncRaw trans txBytes).

Definition Subscribe (trans : Transactor) (txHash : bytes) : M CommitEvent := λ w,
  match Emitter_Subscribe trans with
  | Some e => (w, Fails e)
  | None => (log (EvSubscribe txHash) w, Returns (Emitter_out trans))
  end.

Definition UnsubscribeAll : UnlockFunc := log EvUnsubscribeAll.

Definition BroadcastTxSync (trans : Transactor) : M TxExecution :=
  unlock ← MaybeSignTxMempool trans;
  deferring unlock (
    txHash ← Hash;
    out ← Subscribe trans txHash;
    deferring UnsubscribeAll (
      r ← attempt (CheckTxSync trans);
      _ ← call unlock;
      match r with
      | inl err => fail err
      | inr checkTxReceipt =>
          match out with
          | CommitCtxDone => fail (ErrWaitingForTx (ReceiptTxHash checkTxReceipt))
          | CommitSilent => λ w, (w, Blocks)
          | CommitMessage txe =>
              match CallError txe with
              | Some callError =>
                  if decide (ErrorCode callError ≠ ExecutionReverted) then
                    fail (ErrExceptionDuringExecution callError)
                  else mret txe
              | None => mret txe
              end
          end
      end)).

Definition BroadcastTxAsync (trans : Transactor) : M Receipt := CheckTxSync trans.

(** What a call on a collaborator may be when the envelope came signed:
    a subscription for its hash, a submission of its encoding after it
    passed validation, the unsubscription; no lock, unlock, signing or
    rehash. *)
Definition presigned_event (trans : Transactor) (env : Envelope) (ev : Event) : Prop :=
  match ev with
  | EvSubscribe h => h = Tx_Hash (Tx_ env)
  | EvCheckTx txBytes =>
      txEncoder trans env = inr txBytes ∧ Envelope_Validate env = None
  | EvUnsubscribeAll => True
  | EvLock _ | EvUnlock _ | EvSign _ | EvRehash => False
  end.

End Transactor.

(** Collaborators for running the transactor: every address has a
    signing account at sequence 7, signing adds one signatory per signer,
    the mempool accepts, and the emitter delivers the given execution. *)
Module Run.

Definition sign (env : Envelope) (signers : list SigningAccount) : Envelope * option error :=
  ({| Signatories :=
        Signatories env ++
        ((λ sa, {| sig_Address := sa_Address sa; sig_PublicKey := sa_Address sa;
                   sig_Signature := [] |}) <$> signers);
      Tx_ := Tx_ env |}, None).

Definition digest (tx : Tx) : bytes :=
  PayloadData tx ++ concat (InputAddress <$> Inputs tx).

Definition hash (tx : Tx) : bytes := default (digest tx) (txHash tx).

Definition rehash (tx : Tx) : Tx :=
  {| ChainID := ChainID tx; Inputs := Inputs tx; PayloadData := PayloadData tx;
     txHash := Some (digest tx) |}.

Definition validate (env : Envelope) : option error :=
  match Signatories env with
  | [] => Some (ErrExternal "no signatories")
  | _ => None
  end.

Definition decodeReceipt (bs : bytes) : error + Receipt := inr {| ReceiptTxHash := bs |}.

Definition reverted : Z := 17.

Definition transactor (out : CommitEvent) : Transactor := {|
  MempoolAccounts a := inr (inr {| sa_Address := a; sa_Sequence := 7 |});
  Emitter_Subscribe := None;
  Emitter_out := out;
  checkTxAsync bs :=
    CheckTxResponse (Some {| ResponseCode := TxExecutionSuccessCode; ResponseData := bs;
                             ResponseLog := "" |});
  txEncoder env := inr (digest (Tx_ env))
|}.

Definition alice : Address := ["a"%byte].
Definition bob : Address := ["b"%byte].

(** An envelope with two inputs and no signatory, and the same envelope
    signed by the client at sequences of its own. *)
Definition unsigned : Envelope := {|
  Signatories := [];
  Tx_ := {| ChainID := "TestChain";
            Inputs := [ {| InputAddress := alice; Amount := 1; Sequence := 0 |};
                        {| InputAddress := bob; Amount := 2; Sequence := 0 |} ];
            PayloadData := ["c"%byte]; txHash := None |}
|}.

Definition presigned : Envelope := {|
  Signatories := [ {| sig_Address := alice; sig_PublicKey := alice; sig_Signature := [] |} ];
  Tx_ := {| ChainID := "TestChain";
            Inputs := [ {| InputAddress := alice; Amount := 1; Sequence := 41 |} ];
            PayloadData := ["c"%byte]; txHash := None |}
|}.

Definition world (env : Envelope) : World :=
  {| txEnv := env; held := ∅; onces := []; trace := [] |}.

(** Executions as the emitter may deliver them: without exception, with
    a revert, with another exception. *)
Definition execution (exception : option Exception) : TxExecution :=
  {| TxHash := digest (Tx_ presigned); Height := 35; Result := [];
     Exception_ := exception |}.

Definition revert : Exception := {| Code := reverted; ExceptionString := "revert" |}.
Definition fault : Exception := {| Code := 5; ExceptionString := "insufficient gas" |}.

End Run.

End Transactor.

(** * Properties *)

(** ** Facts about [bytes.Compare] *)


Lemma byte_val_inj a b : Bytes.val a = Bytes.val b → a = b.
Proof.
  unfold Bytes.val. intros E. apply N2Z.inj in E.
  apply (f_equal Byte.of_N) in E. rewrite !Byte.of_to_N in E. congruence.
Qed.

Lemma Compare_range a b : Bytes.Compare a b = -1 ∨ Bytes.Compare a b = 0 ∨ Bytes.Compare a b = 1.
Proof.
  revert b. induction a as [|x a IH]; intros [|y b]; simpl; auto.
  destruct (Bytes.val x <? Bytes.val y); auto. destruct (Bytes.val y <? Bytes.val x); auto.
Qed.

Lemma Compare_eq a b : Bytes.Compare a b = 0 ↔ a = b.
Proof.
  revert b. induction a as [|x a IH]; intros [|y b]; simpl; try (split; congruence || lia).
  destruct (Z.ltb_spec (Bytes.val x) (Bytes.val y)); [split; [lia | intros [= -> ->]; lia]|].
  destruct (Z.ltb_spec (Bytes.val y) (Bytes.val x)); [split; [lia | intros [= -> ->]; lia]|].
  rewrite IH. assert (x = y) as -> by (apply byte_val_inj; lia).
  split; congruence.
Qed.

Lemma Compare_refl a : Bytes.Compare a a = 0.
Proof. by apply Compare_eq. Qed.

Lemma Compare_flip a b : Bytes.Compare b a = - Bytes.Compare a b.
Proof.
  revert b. induction a as [|x a IH]; intros [|y b]; simpl; try done.
  destruct (Z.ltb_spec (Bytes.val x) (Bytes.val y)), (Z.ltb_spec (Bytes.val y) (Bytes.val x)); try lia.
  apply IH.
Qed.

Lemma bytes_lt_trans a b c : Bytes.lt a b → Bytes.lt b c → Bytes.lt a c.
Proof.
  unfold Bytes.lt. revert b c.
  induction a as [|x a IH]; intros [|y b] [|z c]; simpl; try done.
  destruct (Z.ltb_spec (Bytes.val x) (Bytes.val y)), (Z.ltb_spec (Bytes.val y) (Bytes.val z)),
    (Z.ltb_spec (Bytes.val x) (Bytes.val z)); try done; try lia.
  - destruct (Z.ltb_spec (Bytes.val z) (Bytes.val y)); [lia|].
    destruct (Z.ltb_spec (Bytes.val z) (Bytes.val x)); [lia|]. lia.
  - destruct (Z.ltb_spec (Bytes.val y) (Bytes.val x)); [done|].
    destruct (Z.ltb_spec (Bytes.val z) (Bytes.val x)); [lia|]. lia.
  - destruct (Z.ltb_spec (Bytes.val y) (Bytes.val x)); [done|].
    destruct (Z.ltb_spec (Bytes.val z) (Bytes.val y)); [done|].
    destruct (Z.ltb_spec (Bytes.val z) (Bytes.val x)); [lia|]. apply IH.
Qed.

Lemma bytes_lt_irrefl a : ¬ Bytes.lt a a.
Proof. unfold Bytes.lt. rewrite Compare_refl. done. Qed.

Lemma bytes_lt_le a b : Bytes.lt a b → Bytes.le a b.
Proof. unfold Bytes.lt, Bytes.le. lia. Qed.

Lemma bytes_le_lteq a b : Bytes.le a b ↔ Bytes.lt a b ∨ a = b.
Proof.
  unfold Bytes.le, Bytes.lt. rewrite <- Compare_eq. destruct (Compare_range a b); lia.
Qed.

Lemma bytes_not_lt_le a b : ¬ Bytes.lt a b ↔ Bytes.le b a.
Proof.
  unfold Bytes.lt, Bytes.le. rewrite (Compare_flip a b). destruct (Compare_range a b); lia.
Qed.

Lemma bytes_le_lt_trans a b c : Bytes.le a b → Bytes.lt b c → Bytes.lt a c.
Proof. rewrite bytes_le_lteq. intros [?| ->] ?; eauto using bytes_lt_trans. Qed.

Lemma bytes_lt_le_trans a b c : Bytes.lt a b → Bytes.le b c → Bytes.lt a c.
Proof. rewrite bytes_le_lteq. intros ? [?| <-]; eauto using bytes_lt_trans. Qed.

#[global] Instance bytes_lt_strict : StrictOrder Bytes.lt.
Proof. split; [exact bytes_lt_irrefl | exact bytes_lt_trans]. Qed.

#[global] Instance bytes_le_po : PartialOrder Bytes.le.
Proof.
  split; [split|].
  - intros a. apply bytes_le_lteq. by right.
  - intros a b c. rewrite !bytes_le_lteq. intros [?| ->] [?| ->]; eauto using bytes_lt_trans.
  - intros a b. rewrite !bytes_le_lteq. intros [H1| ->] [H2|?]; try done.
    destruct (bytes_lt_irrefl a). eauto using bytes_lt_trans.
Qed.

#[global] Instance bytes_le_total : Total Bytes.le.
Proof.
  intros a b. unfold Bytes.le. rewrite (Compare_flip a b).
  destruct (Compare_range a b); lia.
Qed.


(** ** Facts about the sort *)

Section SortFacts.
Context {A : Type} (less : A → A → bool).

Lemma insert_by_Permutation x l : insert_by less x l ≡ₚ x :: l.
Proof.
  induction l as [|y l IH]; simpl; [done|].
  destruct (less y x); [|done]. rewrite IH. apply perm_swap.
Qed.

Lemma sort_by_Permutation l : sort_by less l ≡ₚ l.
Proof.
  induction l as [|x l IH]; simpl; [done|].
  by rewrite insert_by_Permutation, IH.
Qed.

Hypothesis less_asym : ∀ x y, less x y = true → less y x = false.

Lemma insert_by_HdRel a x l :
  (not_after less) a x → HdRel (not_after less) a l → HdRel (not_after less) a (insert_by less x l).
Proof.
  intros Hax Hal. destruct l as [|y l]; simpl; [by constructor|].
  inversion_clear Hal. destruct (less y x); by constructor.
Qed.

Lemma insert_by_Sorted x l :
  Sorted (not_after less) l → Sorted (not_after less) (insert_by less x l).
Proof.
  induction 1 as [|y l Hl IH Hhd]; simpl; [by repeat constructor|].
  destruct (less y x) eqn:E.
  - constructor; [done|]. apply insert_by_HdRel; [|done].
    unfold not_after. by apply less_asym.
  - constructor; [by constructor|]. by constructor.
Qed.

Lemma sort_by_Sorted l : Sorted (not_after less) (sort_by less l).
Proof.
  induction l as [|x l IH]; simpl; [constructor|]. by apply insert_by_Sorted.
Qed.

End SortFacts.

Lemma bytes_less_asym a b : bytes_less a b = true → bytes_less b a = false.
Proof.
  unfold bytes_less. rewrite bool_decide_eq_true, bool_decide_eq_false.
  rewrite (Compare_flip a b). lia.
Qed.

Lemma not_after_bytes_le a b : not_after bytes_less a b ↔ Bytes.le a b.
Proof.
  unfold not_after, bytes_less. rewrite bool_decide_eq_false.
  apply bytes_not_lt_le.
Qed.

Lemma Sorted_weaken {A} (R1 R2 : relation A) l :
  (∀ a b, R1 a b → R2 a b) → Sorted R1 l → Sorted R2 l.
Proof.
  intros HR. induction 1 as [|a l Hl IH Hhd]; constructor; [done|].
  destruct Hhd; constructor. by apply HR.
Qed.

Lemma sort_bytes_StronglySorted l :
  StronglySorted Bytes.le (sort_by bytes_less l).
Proof.
  apply Sorted_StronglySorted; [apply _|].
  apply (Sorted_weaken (not_after bytes_less)).
  - intros a b. apply not_after_bytes_le.
  - apply sort_by_Sorted, bytes_less_asym.
Qed.

(** A duplicate-free list sorted by [le] is strictly ascending. *)
Lemma StronglySorted_le_lt l :
  NoDup l → StronglySorted Bytes.le l → StronglySorted Bytes.lt l.
Proof.
  induction 2 as [|a l Hl IH Hall]; [constructor|].
  apply NoDup_cons in H as [Hnotin Hnd]. constructor; [by apply IH|].
  rewrite Forall_forall in Hall |- *. intros b Hb.
  destruct (proj1 (bytes_le_lteq a b) (Hall b Hb)) as [?| ->]; [done|].
  by destruct Hnotin.
Qed.


Lemma StronglySorted_filter_keep {A} (R : relation A) (P : A → Prop)
    `{∀ x, Decision (P x)} (l : list A) :
  StronglySorted R l → StronglySorted R (filter P l).
Proof.
  induction 1 as [|a l Hl IH Hall]; [constructor|].
  rewrite filter_cons. destruct (decide (P a)); [|done].
  constructor; [done|]. rewrite Forall_forall in Hall |- *.
  intros b [_ Hb]%list_elem_of_filter. by apply Hall.
Qed.

Lemma filter_all {A} (P : A → Prop) `{∀ x, Decision (P x)} (l : list A) :
  Forall P l → filter P l = l.
Proof.
  induction 1 as [|a l Ha Hl IH]; [done|].
  rewrite filter_cons, decide_True by done. by rewrite IH.
Qed.

Lemma StronglySorted_lt_NoDup (l : list bytes) :
  StronglySorted Bytes.lt l → NoDup l.
Proof.
  induction 1 as [|a l Hl IH Hall]; constructor; [|done].
  intros Hin. rewrite Forall_forall in Hall.
  by apply (bytes_lt_irrefl a), Hall.
Qed.

(** ** The overlay cache *)

Module KVCacheProps.
Import KVCache.

(** *** Point reads after writes *)

Lemma Get_Set kvc k v : Get (Set_ kvc k v) k = v.
Proof. unfold Get, Set_. simpl. by rewrite lookup_insert_eq. Qed.

Lemma Has_Set kvc k v : Has (Set_ kvc k v) k = true.
Proof. unfold Has, Set_. simpl. by rewrite lookup_insert_eq. Qed.

Lemma Get_Delete kvc k : Get (Delete kvc k) k = None.
Proof. unfold Get, Delete. simpl. by rewrite lookup_insert_eq. Qed.

Lemma Has_Delete kvc k : Has (Delete kvc k) k = false.
Proof. unfold Has, Delete. simpl. by rewrite lookup_insert_eq. Qed.

Lemma cache_apply_ne kvc o k :
  op_key o ≠ k → cache (apply kvc o) !! k = cache kvc !! k.
Proof. destruct o; simpl; intros ?; by rewrite lookup_insert_ne. Qed.

(** Operations on other keys leave the entry of [k] as it is. *)
Lemma cache_run_frame kvc ops k :
  Forall (λ o, op_key o ≠ k) ops → cache (run kvc ops) !! k = cache kvc !! k.
Proof.
  revert kvc. induction ops as [|o ops IH]; intros kvc Hall; [done|].
  apply Forall_cons in Hall as [Ho Hall]. unfold run in *. simpl.
  rewrite IH by done. by apply cache_apply_ne.
Qed.

(** C4.  For every key [k], every starting cache and every finite sequence
    of [Set] and [Delete] operations, the state of [k] is decided by the
    last operation alone: after a final [Set(k, v)], [Get(k)] is [v] and
    [Has(k)] is true, whatever tombstone came before; after a final
    [Delete(k)], [Get(k)] is nil and [Has(k)] is false. *)
Theorem last_operation_decides (kvc : KVCache) (ops : list Op) (k : bytes) (v : option bytes) :
  (Get (run kvc (ops ++ [OpSet k v])) k = v ∧
   Has (run kvc (ops ++ [OpSet k v])) k = true) ∧
  (Get (run kvc (ops ++ [OpDelete k])) k = None ∧
   Has (run kvc (ops ++ [OpDelete k])) k = false).
Proof.
  unfold run. rewrite !foldl_snoc. simpl.
  auto using Get_Set, Has_Set, Get_Delete, Has_Delete.
Qed.

(** The same holds when operations on other keys follow. *)
Lemma last_operation_on_key_decides kvc ops1 ops2 o k :
  op_key o = k → Forall (λ o', op_key o' ≠ k) ops2 →
  let kvc' := run kvc (ops1 ++ o :: ops2) in
  match o with
  | OpSet _ v => Get kvc' k = v ∧ Has kvc' k = true
  | OpDelete _ => Get kvc' k = None ∧ Has kvc' k = false
  end.
Proof.
  intros <- Hall. simpl. unfold run. rewrite foldl_app. simpl.
  unfold Get, Has. fold (run (apply (foldl apply kvc ops1) o) ops2).
  rewrite cache_run_frame by done.
  destruct o; simpl; by rewrite lookup_insert_eq.
Qed.

(** *** The key index *)

Lemma index_ok_New : index_ok NewKVCache.
Proof.
  split; [constructor|]. intros k. simpl. rewrite lookup_empty.
  split; [by intros ?%elem_of_nil | by intros [? ?]].
Qed.

Lemma index_ok_apply kvc o : index_ok kvc → index_ok (apply kvc o).
Proof.
  intros [Hnd Hk].
  assert (∀ vi, index_ok
    {| cache := <[op_key o := vi]> (cache kvc);
       keys := match cache kvc !! op_key o with
               | Some _ => keys kvc
               | None => keys kvc ++ [op_key o]
               end |}) as Hgen.
  { intros vi. split; simpl.
    - destruct (cache kvc !! op_key o) eqn:E; [done|].
      apply NoDup_app. split_and!; [done| |apply NoDup_singleton].
      intros k Hin ->%list_elem_of_singleton.
      apply Hk in Hin as [? ?]. congruence.
    - intros k. destruct (decide (op_key o = k)) as [<-|Hne].
      + rewrite lookup_insert_eq. split; [eauto|intros _].
        destruct (cache kvc !! op_key o) eqn:E; [apply Hk; eauto|].
        apply elem_of_app. right. by apply list_elem_of_singleton.
      + rewrite lookup_insert_ne by done. rewrite <- Hk.
        destruct (cache kvc !! op_key o); [done|].
        rewrite elem_of_app, list_elem_of_singleton. naive_solver. }
  destruct o; apply Hgen.
Qed.

Lemma index_ok_run kvc ops : index_ok kvc → index_ok (run kvc ops).
Proof.
  revert kvc. induction ops as [|o ops IH]; intros kvc H; [done|].
  apply IH. by apply index_ok_apply.
Qed.

Lemma cache_apply_is_Some kvc o k :
  is_Some (cache (apply kvc o) !! k) ↔ op_key o = k ∨ is_Some (cache kvc !! k).
Proof.
  destruct o; simpl; rewrite lookup_insert_is_Some;
    (destruct (decide (key = k)); [by split; auto|]); split;
    [intros [?|[_ ?]]; auto | intros [?|?]; auto | intros [?|[_ ?]]; auto | intros [?|?]; auto].
Qed.

Lemma cache_run_is_Some kvc ops k :
  is_Some (cache (run kvc ops) !! k) ↔
  k ∈ map op_key ops ∨ is_Some (cache kvc !! k).
Proof.
  revert kvc. induction ops as [|o ops IH]; intros kvc; simpl.
  - rewrite elem_of_nil. naive_solver.
  - unfold run in *. simpl. rewrite IH, cache_apply_is_Some, elem_of_cons.
    naive_solver.
Qed.

(** From a fresh cache, the index holds exactly the keys written or
    deleted so far. *)
Lemma keys_of_fresh_run ops k :
  k ∈ keys (run NewKVCache ops) ↔ k ∈ map op_key ops.
Proof.
  destruct (index_ok_run NewKVCache ops index_ok_New) as [_ ->].
  rewrite cache_run_is_Some. simpl. rewrite lookup_empty.
  split; [intros [?|[? ?]]; done | auto].
Qed.

(** *** Range iteration *)

Lemma from_low_upward low a b : from_low low a → Bytes.le a b → from_low low b.
Proof.
  unfold from_low. destruct low as [lo|]; simpl; [|done].
  intros Ha Hab Hb. apply Ha. by apply (bytes_le_lt_trans a b lo).
Qed.

Lemma below_high_downward high a b : ¬ below_high high a → Bytes.le a b → ¬ below_high high b.
Proof. apply from_low_upward. Qed.

Lemma seekStart_drop low l i :
  StronglySorted Bytes.le l →
  ∃ n, seekStart low i l (i + length l)%nat = (i + n)%nat ∧
       drop n l = filter (from_low low) l.
Proof.
  intros Hs. revert i. induction Hs as [|key l Hl IH Hall]; intros i.
  - exists 0%nat. simpl. split; [lia|done].
  - simpl. case_bool_decide as Hk.
    + exists 0%nat. split; [lia|]. rewrite drop_0. symmetry. apply filter_all.
      constructor; [done|]. eapply Forall_impl; [exact Hall|].
      intros b. by apply from_low_upward.
    + destruct (IH (S i)) as (n & Hn & Hdrop). exists (S n). split.
      * replace (i + S (length l))%nat with (S i + length l)%nat by lia. lia.
      * simpl. rewrite filter_cons, decide_False; [done|].
        unfold from_low. congruence.
Qed.

Lemma filter_none {A} (P : A → Prop) `{∀ x, Decision (P x)} (l : list A) :
  Forall (λ x, ¬ P x) l → filter P l = [].
Proof.
  induction 1 as [|a l Ha Hl IH]; [done|].
  by rewrite filter_cons, decide_False.
Qed.

Lemma seekEnd_take high l i :
  StronglySorted Bytes.le l →
  match seekEnd high i l with
  | Some j => ∃ n, j = (i + n)%nat ∧ take n l = filter (below_high high) l
  | None => l = filter (below_high high) l
  end.
Proof.
  intros Hs. revert i. induction Hs as [|key l Hl IH Hall]; intros i; [done|].
  simpl. case_bool_decide as Hk.
  - exists 0%nat. split; [lia|]. simpl. symmetry. apply filter_none.
    constructor; [done|]. eapply Forall_impl; [exact Hall|].
    intros b. by apply below_high_downward.
  - rewrite filter_cons, decide_True by done.
    specialize (IH (S i)). destruct (seekEnd high (S i) l) as [j|].
    + destruct IH as (n & -> & Htake). exists (S n). split; [lia|].
      simpl. by rewrite Htake.
    + by rewrite <- IH.
Qed.

(** What [sortedKeysInDomain] returns: the sorted keys, filtered to the
    domain. *)
Lemma sortedKeysInDomain_filter kvc low high :
  (sortedKeysInDomain kvc low high).1 =
  filter (below_high high) (filter (from_low low) (sort_by bytes_less (keys kvc))).
Proof.
  unfold sortedKeysInDomain. simpl.
  set (sorted := sort_by bytes_less (keys kvc)).
  assert (StronglySorted Bytes.le sorted) as Hs by apply sort_bytes_StronglySorted.
  destruct (seekStart_drop low sorted 0 Hs) as (n & Hn & Hdrop).
  simpl in Hn. rewrite Hn, Hdrop.
  assert (StronglySorted Bytes.le (filter (from_low low) sorted)) as Hs'
    by by apply StronglySorted_filter_keep.
  pose proof (seekEnd_take high _ 0 Hs') as Hend.
  destruct (seekEnd high 0 (filter (from_low low) sorted)) as [j|].
  - destruct Hend as (m & -> & Htake). done.
  - done.
Qed.

Lemma normalised_domain low high k :
  from_low (Some (default [] low)) k ∧ below_high high k ↔ InDomain low high k.
Proof.
  unfold from_low, below_high, InDomain. simpl.
  rewrite <- bytes_not_lt_le. unfold Bytes.lt. destruct high; simpl; intuition.
Qed.

(** The consumer loop of a forward iterator sees the remaining keys in
    slice order and ends, given fuel for each of them. *)
Lemma iterate_forward c s e ks (i fuel : nat) :
  (length ks - i ≤ fuel)%nat →
  iterate fuel {| it_cache := c; it_start := s; it_end := e; it_keys := ks;
                  keyIndex := Z.of_nat i; reverse := false |} = (drop i ks, true).
Proof.
  revert i. induction fuel as [|fuel IH]; intros i Hfuel.
  - simpl. unfold Valid. simpl.
    destruct (Z.ltb_spec (Z.of_nat i) (Z.of_nat (length ks))); [lia|].
    by rewrite drop_ge by lia.
  - simpl. unfold Valid, Key, Next, Valid, sliceIndex, index. simpl.
    destruct (Z.ltb_spec (Z.of_nat i) (Z.of_nat (length ks))) as [Hlt|Hge].
    + destruct (Z.leb_spec 0 (Z.of_nat i)); [|lia]. rewrite Nat2Z.id.
      destruct (lookup_lt_is_Some_2 ks i) as [k Hk]; [lia|]. rewrite Hk.
      replace (Z.of_nat i + 1) with (Z.of_nat (S i)) by lia.
      rewrite IH by lia. by rewrite (drop_S _ _ _ Hk).
    + by rewrite drop_ge by lia.
Qed.

(** Every key of the index that lies in the domain is yielded by
    [Iterator(low, high)], once, in ascending order, and no other key:
    this holds for tombstoned entries as for live ones. *)
Lemma Iterator_yields kvc low high fuel :
  NoDup (keys kvc) → (length (keys kvc) ≤ fuel)%nat →
  ∃ ys, iterate fuel (Iterator kvc low high).1 = (ys, true) ∧
        StronglySorted Bytes.lt ys ∧
        ∀ k, k ∈ ys ↔ k ∈ keys kvc ∧ InDomain low high k.
Proof.
  intros Hnd Hfuel. unfold Iterator, NormaliseDomain, newIterator.
  pose proof (sortedKeysInDomain_filter kvc (Some (default [] low)) high) as Hf.
  destruct (sortedKeysInDomain kvc (Some (default [] low)) high) as [ks kvc'].
  simpl in Hf. simpl.
  assert (ks ⊆+ keys kvc) as Hsub.
  { rewrite Hf. etrans; [apply sublist_submseteq, sublist_filter|].
    etrans; [apply sublist_submseteq, sublist_filter|].
    by rewrite sort_by_Permutation. }
  exists ks. split_and!.
  - change 0 with (Z.of_nat 0). rewrite iterate_forward; [done|].
    apply submseteq_length in Hsub. lia.
  - apply StronglySorted_le_lt.
    + apply submseteq_sublist_l in Hsub as (l2 & Hsl & Hp).
      eapply sublist_NoDup; [|exact Hsl]. by rewrite Hp.
    + rewrite Hf. do 2 apply StronglySorted_filter_keep.
      apply sort_bytes_StronglySorted.
  - intros k. rewrite Hf, !list_elem_of_filter, sort_by_Permutation.
    rewrite <- normalised_domain. naive_solver.
Qed.

(** C5.  On a fresh cache, after [Set] on N distinct keys that all lie in
    [[low, high)], the consumer loop over [Iterator(low, high)] ends and
    has seen exactly those N keys, each once, in strictly ascending
    byte-lexicographic order. *)
Theorem Iterator_complete (kvs : list (bytes * option bytes)) (low high : option bytes)
    (fuel : nat) :
  NoDup kvs.*1 →
  Forall (InDomain low high) kvs.*1 →
  (length kvs ≤ fuel)%nat →
  let kvc := run NewKVCache (map (λ kv, OpSet kv.1 kv.2) kvs) in
  ∃ ys, iterate fuel (Iterator kvc low high).1 = (ys, true) ∧
        StronglySorted Bytes.lt ys ∧
        ys ≡ₚ kvs.*1.
Proof.
  intros Hnd Hdom Hfuel kvc.
  assert (∀ k, k ∈ keys kvc ↔ k ∈ kvs.*1) as Hkeys.
  { intros k. unfold kvc. rewrite keys_of_fresh_run, map_map. done. }
  destruct (index_ok_run NewKVCache (map (λ kv, OpSet kv.1 kv.2) kvs) index_ok_New)
    as [Hnd' _]. fold kvc in Hnd'.
  assert (keys kvc ≡ₚ kvs.*1) as Hperm by by apply NoDup_Permutation.
  destruct (Iterator_yields kvc low high fuel) as (ys & Hit & Hs & Hin).
  { done. }
  { rewrite Hperm, length_fmap. done. }
  exists ys. split_and!; [done|done|].
  apply NoDup_Permutation; [by apply StronglySorted_lt_NoDup|done|].
  intros k. rewrite Hin, Hkeys. rewrite Forall_forall in Hdom. naive_solver.
Qed.

(** A run of the claim: three keys set in no particular order on a fresh
    cache and iterated over [["a", "d")]. *)
Lemma Iterator_complete_witness :
  ∃ ys,
    iterate 3 (Iterator
      (run NewKVCache
         (map (λ kv : bytes * option bytes, OpSet kv.1 kv.2)
            [(["c"%byte], Some ["3"%byte]); (["a"%byte], Some ["1"%byte]);
             (["b"%byte; "x"%byte], None)]))
      (Some ["a"%byte]) (Some ["d"%byte])).1 = (ys, true) ∧
    StronglySorted Bytes.lt ys ∧
    ys ≡ₚ [["c"%byte]; ["a"%byte]; ["b"%byte; "x"%byte]].
Proof.
  apply (Iterator_complete
    [(["c"%byte], Some ["3"%byte]); (["a"%byte], Some ["1"%byte]);
     (["b"%byte; "x"%byte], None)]
    (Some ["a"%byte]) (Some ["d"%byte]) 3).
  - apply (bool_decide_unpack (NoDup _)). vm_compute. reflexivity.
  - repeat constructor; vm_compute; congruence.
  - simpl. lia.
Defined.

Example Iterator_orders_keys :
  (iterate 3 (Iterator
      (run NewKVCache [OpSet ["c"%byte] None; OpDelete ["a"%byte]; OpSet ["b"%byte] None;
                       OpSet ["z"%byte] None])
      None (Some ["k"%byte])).1).1 = [["a"%byte]; ["b"%byte]; ["c"%byte]].
Proof. vm_compute. reflexivity. Qed.

(** *** [Reset] *)

Lemma Get_Reset kvc k : Get (Reset kvc) k = None.
Proof. unfold Get, Reset. simpl. by rewrite lookup_empty. Qed.

Lemma Has_Reset kvc k : Has (Reset kvc) k = false.
Proof. unfold Has, Reset. simpl. by rewrite lookup_empty. Qed.

(** [Reset] leaves the key index as it was: every key that was in it and
    lies in the domain is still yielded by an iterator made afterwards. *)
Lemma Reset_keeps_keys kvc : keys (Reset kvc) = keys kvc.
Proof. done. Qed.

(** C6.  [Reset] empties the map but not the key index: after
    [Set("a", "1")] and [Reset()], [Get("a")] is nil and [Has("a")] is
    false, yet the iterator over the unbounded domain still yields
    ["a"]. *)
Theorem Reset_iterator_yields_stale_key :
  let kvc := Reset (Set_ NewKVCache ["a"%byte] (Some ["1"%byte])) in
  Get kvc ["a"%byte] = None ∧
  Has kvc ["a"%byte] = false ∧
  iterate 1 (Iterator kvc None None).1 = ([["a"%byte]], true).
Proof. vm_compute. done. Qed.

End KVCacheProps.

(** ** The proposal cache *)

Module ProposalProps.
Import Proposal.

Lemma Less_never_panics p q : Less p q = Some (bytes_less p q).
Proof.
  unfold Less.
  destruct (Compare_range p q) as [E|[E|E]]; rewrite E; f_equal; symmetry;
    unfold bytes_less; [rewrite bool_decide_eq_true|rewrite bool_decide_eq_false..]; lia.
Qed.

Lemma hash_less_bytes_less p q : hash_less p q = bytes_less p q.
Proof. unfold hash_less. by rewrite Less_never_panics. Qed.

Lemma sort_by_ext {A} (less1 less2 : A → A → bool) l :
  (∀ x y, less1 x y = less2 x y) → sort_by less1 l = sort_by less2 l.
Proof.
  intros Hext. induction l as [|x l IH]; simpl; [done|]. rewrite IH.
  generalize (sort_by less2 l). intros k.
  induction k as [|y k IHk]; simpl; [done|]. by rewrite Hext, IHk.
Qed.

Lemma sort_hashes l : sort_by hash_less l = sort_by bytes_less l.
Proof. apply sort_by_ext, hash_less_bytes_less. Qed.

Section CacheProps.
Context {Ballot R : Type} `{!Reader Ballot R}.
Implicit Types cache : Cache Ballot R.

Lemma is_range_NoDup cache range : is_range cache range → NoDup range.
Proof. intros ->. apply NoDup_fst_map_to_list. Qed.

Lemma is_range_elem_of cache range h :
  is_range cache range → h ∈ range ↔ is_Some (proposals cache !! h).
Proof.
  intros ->. rewrite list_elem_of_fmap. split.
  - intros ([h' info] & -> & Hin). apply elem_of_map_to_list in Hin. eauto.
  - intros [info Hin]. exists (h, info). split; [done|].
    by apply elem_of_map_to_list.
Qed.

(** The sorted hashes of [Sync] are the keys of the map in strictly
    ascending order, whatever the enumeration was. *)
Lemma sorted_range cache range :
  is_range cache range →
  StronglySorted Bytes.lt (sort_by hash_less range) ∧
  sort_by hash_less range ≡ₚ range.
Proof.
  intros Hr. rewrite sort_hashes. split; [|apply sort_by_Permutation].
  apply StronglySorted_le_lt; [|apply sort_bytes_StronglySorted].
  rewrite sort_by_Permutation. by eapply is_range_NoDup.
Qed.

Lemma sorted_range_unique cache cache' range range' :
  proposals cache' = proposals cache →
  is_range cache range → is_range cache' range' →
  sort_by hash_less range' = sort_by hash_less range.
Proof.
  intros Hp Hr Hr'. rewrite !sort_hashes.
  apply (StronglySorted_unique Bytes.le); try apply sort_bytes_StronglySorted.
  rewrite !sort_by_Permutation. unfold is_range in *. by rewrite Hr, Hr', Hp.
Qed.

Lemma syncLoop_perform {W} `{!Writer Ballot W} cache hashes (state : W) :
  Forall (λ h, is_Some (proposals cache !! h)) hashes →
  syncLoop cache hashes state = perform state (omap (write_of cache) hashes).
Proof.
  intros Hall. revert state.
  induction Hall as [|h hashes [info Hh] _ IH]; intros state; [done|].
  simpl. unfold write_of at 1. rewrite Hh.
  destruct (removed info); simpl.
  - destruct (writer_RemoveProposal state h) as [state' [[]| |]]; [apply IH|done..].
  - destruct (updated info); simpl; [|apply IH].
    destruct (writer_UpdateProposal state h (ballot info)) as [state' [[]| |]];
      [apply IH|done..].
Qed.

Lemma syncLoop_same_entries {W} `{!Writer Ballot W} cache cache' hashes (state : W) :
  proposals cache' = proposals cache →
  syncLoop cache' hashes state = syncLoop cache hashes state.
Proof.
  intros Hp. revert state. induction hashes as [|h hashes IH]; intros state; [done|].
  simpl. rewrite Hp. destruct (proposals cache !! h) as [info|]; [|done].
  destruct (removed info).
  - destruct (writer_RemoveProposal state h) as [state' [[]| |]]; [apply IH|done..].
  - destruct (updated info); [|apply IH].
    destruct (writer_UpdateProposal state h (ballot info)) as [state' [[]| |]];
      [apply IH|done..].
Qed.

(** A recorder notes exactly the attempted calls and returns what the
    writer under it returns. *)
Lemma perform_Recorder {W} `{!Writer Ballot W} (state : W) noted calls :
  perform (MkRecorder state noted) calls =
  (MkRecorder (perform state calls).1 (noted ++ attempted state calls),
   (perform state calls).2).
Proof.
  revert state noted. induction calls as [|c calls IH]; intros state noted; simpl.
  - by rewrite app_nil_r.
  - assert (perform_call (MkRecorder state noted) c =
            (MkRecorder (perform_call state c).1 (noted ++ [c]), (perform_call state c).2))
      as ->.
    { destruct c; simpl;
        [destruct (writer_UpdateProposal state proposalHash b)
        |destruct (writer_RemoveProposal state proposalHash)]; done. }
    destruct (perform_call state c) as [state' [[]| |]]; simpl; [|done..].
    rewrite IH. by rewrite <- app_assoc.
Qed.

Lemma attempted_all {W} `{!Writer Ballot W} (state : W) calls :
  (perform state calls).2 = Ok tt → attempted state calls = calls.
Proof.
  revert state. induction calls as [|c calls IH]; intros state; simpl; [done|].
  destruct (perform_call state c) as [state' [[]| |]]; simpl; [|done..].
  intros ?. by rewrite IH.
Qed.

Lemma attempted_prefix {W} `{!Writer Ballot W} (state : W) calls :
  attempted state calls `prefix_of` calls.
Proof.
  revert state. induction calls as [|c calls IH]; intros state; simpl; [done|].
  destruct (perform_call state c) as [state' [[]| |]].
  - by apply prefix_cons.
  - by exists calls.
  - by exists calls.
Qed.

(** C1.  For every cache generation and every order in which Go
    enumerates the map, [Sync] visits the cached hashes in strictly
    ascending byte-lexicographic order [hashes]; it makes, in that order,
    [RemoveProposal] for an entry marked removed, else [UpdateProposal] for
    one marked updated, and nothing for an entry only read, stopping after
    the first call for which the writer returns an error, which [Sync]
    returns.  So when [Sync] returns nil the calls seen by the writer are
    exactly those of all hashes, and a second cache holding the same
    entries makes the same calls with the same result, however its map is
    enumerated. *)
Theorem Sync_writes_in_hash_order {W} `{!Writer Ballot W}
    cache cache' (range range' : list bytes) (state : W) :
  is_range cache range →
  proposals cache' = proposals cache →
  is_range cache' range' →
  ∃ hashes,
    StronglySorted Bytes.lt hashes ∧ hashes ≡ₚ range ∧
    let planned := omap (write_of cache) hashes in
    Sync cache range state = perform state planned ∧
    rec_calls (Sync cache range (MkRecorder state [])).1 = attempted state planned ∧
    attempted state planned `prefix_of` planned ∧
    ((Sync cache range state).2 = Ok tt → attempted state planned = planned) ∧
    Sync cache' range' state = Sync cache range state ∧
    rec_calls (Sync cache' range' (MkRecorder state [])).1 = attempted state planned.
Proof.
  intros Hr Hp Hr'. exists (sort_by hash_less range).
  destruct (sorted_range cache range Hr) as [Hs Hperm].
  split_and!; [done|done|]. simpl.
  assert (Forall (λ h, is_Some (proposals cache !! h)) (sort_by hash_less range)) as Hall.
  { rewrite Forall_forall. intros h Hh. rewrite Hperm in Hh.
    by apply (is_range_elem_of cache range). }
  assert (∀ V `{!Writer Ballot V} (st : V),
            Sync cache' range' st = Sync cache range st) as Hsame.
  { intros V ? st. unfold Sync.
    rewrite (sorted_range_unique cache cache' range range') by done.
    by apply syncLoop_same_entries. }
  assert (∀ V `{!Writer Ballot V} (st : V),
            Sync cache range st =
            perform st (omap (write_of cache) (sort_by hash_less range))) as Hsync.
  { intros V ? st. unfold Sync. by apply syncLoop_perform. }
  split_and!.
  - apply Hsync.
  - rewrite Hsync, perform_Recorder. done.
  - apply attempted_prefix.
  - rewrite Hsync. apply attempted_all.
  - apply Hsame.
  - rewrite Hsame, Hsync, perform_Recorder. done.
Qed.

(** *** Removal *)

Lemma get_keeps_removed cache h hash :
  removed_at cache hash → removed_at (get cache h).1 hash.
Proof.
  intros (info & Hl & Hr). unfold get.
  destruct (proposals cache !! toProposalHash h) eqn:E; [by exists info|].
  destruct (reader_GetProposal (backend cache) h) as [backend' [prop|e|]]; simpl;
    [|by exists info..].
  exists info. split; [|done]. simpl. rewrite lookup_insert_ne; [done|congruence].
Qed.

Lemma get_removed cache h hash :
  removed_at cache hash → toProposalHash h = hash →
  ∃ info, get cache h = (cache, Ok info) ∧ removed info = true.
Proof.
  intros (info & Hl & Hr) <-. exists info. unfold get. by rewrite Hl.
Qed.

Lemma get_stores cache h cache' info :
  get cache h = (cache', Ok info) →
  proposals cache' !! toProposalHash h = Some info.
Proof.
  unfold get. destruct (proposals cache !! toProposalHash h) eqn:E.
  - by intros [= <- <-].
  - destruct (reader_GetProposal (backend cache) h) as [backend' [prop|e|]];
      intros [= <- <-]. simpl. by rewrite lookup_insert_eq.
Qed.

Lemma applyOp_keeps_removed cache o hash :
  removed_at cache hash → removed_at (applyOp cache o) hash.
Proof.
  intros Hrem. destruct o as [h|h b|h]; simpl.
  - unfold GetProposal. pose proof (get_keeps_removed cache h hash Hrem) as H.
    destruct (get cache h) as [c [info| |]]; simpl in *; [|done..].
    by destruct (removed info).
  - unfold UpdateProposal. pose proof (get_keeps_removed cache h hash Hrem) as H.
    destruct (get cache h) as [c [info| |]] eqn:Eg; simpl in *; [|done..].
    destruct (removed info) eqn:Er; simpl; [done|].
    destruct H as (info' & Hl & Hr). exists info'. split; [|done]. simpl.
    rewrite lookup_insert_ne; [done|]. intros Heq.
    apply get_stores in Eg. rewrite Heq in Eg. congruence.
  - unfold RemoveProposal. pose proof (get_keeps_removed cache h hash Hrem) as H.
    destruct (get cache h) as [c [info| |]] eqn:Eg; simpl in *; [|done..].
    destruct (removed info) eqn:Er; simpl; [done|].
    destruct H as (info' & Hl & Hr). exists info'. split; [|done]. simpl.
    rewrite lookup_insert_ne; [done|]. intros Heq.
    apply get_stores in Eg. rewrite Heq in Eg. congruence.
Qed.

Lemma runOps_keeps_removed cache ops hash :
  removed_at cache hash → removed_at (runOps cache ops) hash.
Proof.
  revert cache. induction ops as [|o ops IH]; intros cache H; [done|].
  apply IH. by apply applyOp_keeps_removed.
Qed.

Lemma RemoveProposal_marks cache h cache1 :
  RemoveProposal cache h = (cache1, Ok tt) → removed_at cache1 (toProposalHash h).
Proof.
  unfold RemoveProposal. destruct (get cache h) as [c [info| |]]; [|done..].
  destruct (removed info); [done|]. intros [= <-].
  eexists. simpl. by rewrite lookup_insert_eq.
Qed.

(** C9.  Within one cache generation (any sequence of [GetProposal],
    [UpdateProposal] and [RemoveProposal] on any hashes, no [Reset]), once
    [RemoveProposal(h)] has returned nil, every later [UpdateProposal] of
    that hash returns an error, every later [RemoveProposal] of it returns
    an error, and [GetProposal] of it returns a nil ballot and no error.
    [h'] is any byte string naming the same hash as [h], [h] itself for
    one. *)
Theorem removal_is_terminal cache cache1 (h h' : bytes) (ops : list (CacheOp Ballot))
    (b : option Ballot) :
  RemoveProposal cache h = (cache1, Ok tt) →
  toProposalHash h' = toProposalHash h →
  let cache2 := runOps cache1 ops in
  (UpdateProposal cache2 h' b).2 = Err (ErrUpdateRemoved h') ∧
  (RemoveProposal cache2 h').2 = Err (ErrRemoveRemoved h') ∧
  (GetProposal cache2 h').2 = Ok None.
Proof.
  intros Hrm Hh cache2.
  assert (removed_at cache2 (toProposalHash h)) as Hrem
    by by apply runOps_keeps_removed, (RemoveProposal_marks cache).
  destruct (get_removed cache2 h' _ Hrem Hh) as (info & Hget & Hr).
  unfold UpdateProposal, RemoveProposal, GetProposal. rewrite Hget, Hr. done.
Qed.

End CacheProps.

(** *** The scenario of the design document *)

Import Proposal.Run.

Example scenario_calls :
  rec_calls (Sync scenario
               (toProposalHash <$> [h2; h3; h1]) (MkRecorder nullWriter [])).1 =
  [CallRemoveProposal (toProposalHash h1);
   CallUpdateProposal (toProposalHash h2) (Some 2%nat);
   CallUpdateProposal (toProposalHash h3) (Some 3%nat)].
Proof. vm_compute. reflexivity. Qed.

(** An output that rejects its second call sees the first two calls only,
    and [Sync] returns its error. *)
Example scenario_calls_rejected :
  let r := Sync scenario (toProposalHash <$> [h2; h3; h1])
             (MkRecorder {| quota := 1 |} []) in
  rec_calls r.1 =
    [CallRemoveProposal (toProposalHash h1);
     CallUpdateProposal (toProposalHash h2) (Some 2%nat)] ∧
  r.2 = Err (ErrExternal "quota").
Proof. vm_compute. done. Qed.

Lemma Sync_writes_in_hash_order_witness :
  ∃ hashes,
    StronglySorted Bytes.lt hashes ∧
    hashes ≡ₚ toProposalHash <$> [h2; h3; h1] ∧
    let planned := omap (write_of scenario) hashes in
    Sync scenario (toProposalHash <$> [h2; h3; h1]) nullWriter =
      perform nullWriter planned ∧
    rec_calls (Sync scenario (toProposalHash <$> [h2; h3; h1])
                 (MkRecorder nullWriter [])).1 = attempted nullWriter planned ∧
    attempted nullWriter planned `prefix_of` planned ∧
    ((Sync scenario (toProposalHash <$> [h2; h3; h1]) nullWriter).2 = Ok tt →
     attempted nullWriter planned = planned) ∧
    Sync scenario' (toProposalHash <$> [h3; h1; h2]) nullWriter =
      Sync scenario (toProposalHash <$> [h2; h3; h1]) nullWriter ∧
    rec_calls (Sync scenario' (toProposalHash <$> [h3; h1; h2])
                 (MkRecorder nullWriter [])).1 = attempted nullWriter planned.
Proof.
  apply (Sync_writes_in_hash_order scenario scenario').
  - apply (bool_decide_unpack _). vm_compute. reflexivity.
  - vm_compute. reflexivity.
  - apply (bool_decide_unpack _). vm_compute. reflexivity.
Defined.

Lemma removal_is_terminal_witness :
  let cache2 := runOps (RemoveProposal (NewCache emptyBackend) h1).1
                  [OpUpdateProposal h2 (Some 2%nat); OpGetProposal h1;
                   OpUpdateProposal h1 (Some 5%nat)] in
  (UpdateProposal cache2 h1 (Some 7%nat)).2 = Err (ErrUpdateRemoved h1) ∧
  (RemoveProposal cache2 h1).2 = Err (ErrRemoveRemoved h1) ∧
  (GetProposal cache2 h1).2 = Ok None.
Proof.
  apply (removal_is_terminal (NewCache emptyBackend) _ h1 h1).
  - vm_compute. reflexivity.
  - reflexivity.
Defined.

End ProposalProps.

(** ** The bond context *)

Module BondProps.
Import Bond.

Lemma sub64_exact a b : is_uint64 a → 0 ≤ b ≤ a → sub64 a b = a - b.
Proof.
  unfold is_uint64, sub64. intros Ha Hb. apply Z.mod_small.
  unfold uint64_modulus in *. lia.
Qed.

Section ExecuteProps.
Context {S V : Type} `{!StateReaderWriter S, !ValidatorReaderWriter V}.
Variable hasBondPermission : S → Account → bool.

(** C2.  For every account with an ed25519 public key, the bond permission
    and balance >= amount > 0, over a state and a validator set that do
    not fail, [Execute] on a [BondTx] with that input returns nil; the
    account then read from the state is the old one with [amount] taken off
    its balance, the power of the account's public key has grown by
    [amount] (from zero for a key that had none), and no other account and
    no other validator has changed. *)
Theorem Execute_bonds `{!LawfulState S, !LawfulValidators V}
    (ctx : BondContext S V) (input : TxInput) (account : Account) :
  GetAccount (State ctx) (InputAddress input) = Ok (Some account) →
  GetCurveType (PublicKey_ account) = CurveTypeEd25519 →
  hasBondPermission (State ctx) account = true →
  is_uint64 (Balance account) →
  0 < Amount input ≤ Balance account →
  let out := Execute hasBondPermission ctx (PayloadBondTx {| Input := Some input |}) in
  out.2 = Ok tt ∧
  GetAccount (State out.1) (Address_ account) =
    Ok (Some {| Address_ := Address_ account; PublicKey_ := PublicKey_ account;
                Sequence := Sequence account;
                Balance := Balance account - Amount input |}) ∧
  Power (ValidatorSet out.1) (PublicKey_ account) =
    Power (ValidatorSet ctx) (PublicKey_ account) + Amount input ∧
  (∀ addr, addr ≠ Address_ account →
     GetAccount (State out.1) addr = GetAccount (State ctx) addr) ∧
  (∀ pk, pk ≠ PublicKey_ account →
     Power (ValidatorSet out.1) pk = Power (ValidatorSet ctx) pk).
Proof.
  intros Hget Hct Hperm Hbal Hamt. unfold Execute. simpl. rewrite Hget, Hct, Hperm. simpl.
  destruct (Z.eqb_spec (Amount input) 0) as [|_]; [lia|].
  destruct (Z.ltb_spec (Balance account) (Amount input)) as [|_]; [lia|].
  unfold SubtractFromBalance.
  destruct (Z.ltb_spec (Balance account) (Amount input)) as [|_]; [lia|].
  rewrite sub64_exact by (done || lia). simpl.
  set (account' := {| Address_ := Address_ account; PublicKey_ := PublicKey_ account;
                      Sequence := Sequence account;
                      Balance := Balance account - Amount input |}).
  pose proof (add_ok (ValidatorSet ctx) (PublicKey_ account) (Amount input)) as Hadd.
  pose proof (power_add (ValidatorSet ctx) (PublicKey_ account) (Amount input)) as Hpow.
  pose proof (λ pk', power_add_ne (ValidatorSet ctx) (PublicKey_ account) pk'
                      (Amount input)) as Hpow'.
  destruct (AddPower (ValidatorSet ctx) (PublicKey_ account) (Amount input)) as [vs r].
  simpl in *. subst r.
  pose proof (update_ok (State ctx) account') as Hup.
  pose proof (get_update (State ctx) account') as Hgu.
  pose proof (get_update_ne (State ctx) account') as Hgu'.
  destruct (UpdateAccount (State ctx) account') as [st r]. simpl in *.
  done.
Qed.

(** C3.  For every input account, when the bond amount is 0 or the balance
    is strictly less than the amount, [Execute] returns an error and leaves
    the state and the validator set as they were: no balance is changed, no
    power is added, [UpdateAccount] is not called.  The curve and
    permission checks come first, so the error is theirs when one of them
    fails; when both pass it is "nothing to bond" for amount 0 and
    "insufficient funds" for a balance below the amount. *)
Theorem Execute_rejects (ctx : BondContext S V) (input : TxInput) (account : Account) :
  GetAccount (State ctx) (InputAddress input) = Ok (Some account) →
  Amount input = 0 ∨ Balance account < Amount input →
  let out := Execute hasBondPermission ctx (PayloadBondTx {| Input := Some input |}) in
  is_Err out.2 = true ∧
  State out.1 = State ctx ∧
  ValidatorSet out.1 = ValidatorSet ctx ∧
  (GetCurveType (PublicKey_ account) ≠ CurveTypeSecp256k1 →
   hasBondPermission (State ctx) account = true →
   out.2 = Err (if Amount input =? 0 then ErrNothingToBond
                else ErrInsufficientFunds (Address_ account) (Balance account)
                       (Amount input))).
Proof.
  intros Hget Hbad. unfold Execute. simpl. rewrite Hget.
  destruct (decide (GetCurveType (PublicKey_ account) = CurveTypeSecp256k1)); [done|].
  destruct (hasBondPermission (State ctx) account); simpl; [|done].
  destruct (Z.eqb_spec (Amount input) 0) as [|Hne]; [done|].
  destruct (Z.ltb_spec (Balance account) (Amount input)) as [|Hge]; [done|].
  lia.
Qed.

End ExecuteProps.

(** *** The in-memory collaborators do not fail *)

Import Bond.Memory.

#[export] Instance MemoryState_Lawful : LawfulState MemoryState.
Proof.
  split; simpl.
  - done.
  - intros s a. by rewrite lookup_insert_eq.
  - intros s a addr Hne. by rewrite lookup_insert_ne.
Qed.

#[export] Instance MemoryValidators_Lawful : LawfulValidators MemoryValidators.
Proof.
  split; simpl.
  - done.
  - intros v pk p. by rewrite lookup_insert_eq.
  - intros v pk pk' p Hne. by rewrite lookup_insert_ne.
Qed.

(** Scenario S1: balance 1000, power 0, bond 400. *)
Example bond_happy_path :
  let out := Execute (hasBondPermissionOf [addrA]) (ctxA 1000) (bondA 400) in
  out.2 = Ok tt ∧
  Balance <$> (State out.1 !! addrA) = Some 600 ∧
  Power (ValidatorSet out.1) pubA = 400.
Proof. vm_compute. done. Qed.

(** Scenario S2: balance 100, bond 500. *)
Example bond_insufficient_funds :
  let out := Execute (hasBondPermissionOf [addrA]) (ctxA 100) (bondA 500) in
  out.2 = Err (ErrInsufficientFunds addrA 100 500) ∧
  out.1 = {| State := State (ctxA 100); ValidatorSet := ∅;
             tx := Some {| Input := Some {| InputAddress := addrA; Amount := 500;
                                            InputSequence := 1 |} |} |}.
Proof. vm_compute. done. Qed.

Lemma Execute_bonds_witness :
  let out := Execute (hasBondPermissionOf [addrA]) (ctxA 1000) (bondA 400) in
  out.2 = Ok tt ∧
  GetAccount (State out.1) addrA = Ok (Some (accountA (1000 - 400))) ∧
  Power (ValidatorSet out.1) pubA = Power (ValidatorSet (ctxA 1000)) pubA + 400 ∧
  (∀ addr, addr ≠ addrA →
     GetAccount (State out.1) addr = GetAccount (State (ctxA 1000)) addr) ∧
  (∀ pk, pk ≠ pubA →
     Power (ValidatorSet out.1) pk = Power (ValidatorSet (ctxA 1000)) pk).
Proof.
  apply (Execute_bonds (hasBondPermissionOf [addrA]) (ctxA 1000)
           {| InputAddress := addrA; Amount := 400; InputSequence := 1 |}
           (accountA 1000)).
  - reflexivity.
  - reflexivity.
  - vm_compute. reflexivity.
  - unfold is_uint64, uint64_modulus. simpl. lia.
  - simpl. lia.
Defined.

Lemma Execute_rejects_witness :
  let out := Execute (hasBondPermissionOf [addrA]) (ctxA 100) (bondA 500) in
  is_Err out.2 = true ∧
  State out.1 = State (ctxA 100) ∧
  ValidatorSet out.1 = ValidatorSet (ctxA 100) ∧
  (GetCurveType pubA ≠ CurveTypeSecp256k1 →
   hasBondPermissionOf [addrA] (State (ctxA 100)) (accountA 100) = true →
   out.2 = Err (if 500 =? 0 then ErrNothingToBond
                else ErrInsufficientFunds addrA 100 500)).
Proof.
  apply (Execute_rejects (hasBondPermissionOf [addrA]) (ctxA 100)
           {| InputAddress := addrA; Amount := 500; InputSequence := 1 |}
           (accountA 100)).
  - reflexivity.
  - right. simpl. lia.
Defined.

End BondProps.

(** ** The transactor *)

Module TransactorProps.
Import Transactor.

Ltac unfold_M :=
  unfold mbind, M_bind, mret, M_ret, fail, lift, call, attempt, deferring.

Lemma foldl_mutexUnlock addrs : ∀ w,
  trace (foldl (λ w (unlock : UnlockFunc), unlock w) w (mutexUnlock <$> addrs)) =
    trace w ++ (EvUnlock <$> addrs) ∧
  onces (foldl (λ w (unlock : UnlockFunc), unlock w) w (mutexUnlock <$> addrs)) = onces w ∧
  txEnv (foldl (λ w (unlock : UnlockFunc), unlock w) w (mutexUnlock <$> addrs)) = txEnv w ∧
  held (foldl (λ w (unlock : UnlockFunc), unlock w) w (mutexUnlock <$> addrs)) =
    held w ∖ list_to_set addrs.
Proof.
  induction addrs as [|a addrs IH]; intros w.
  - simpl. rewrite app_nil_r. split_and!; try done. set_solver.
  - rewrite !fmap_cons. cbn [foldl].
    destruct (IH (mutexUnlock a w)) as (Ht & Ho & He & Hh).
    rewrite Ht, Ho, He, Hh. unfold mutexUnlock, log, set_held. simpl.
    rewrite <- app_assoc. split_and!; try done. set_solver.
Qed.

Lemma unlockAll_mutexes addrs w :
  trace (unlockAll (mutexUnlock <$> addrs) w) = trace w ++ (EvUnlock <$> reverse addrs) ∧
  onces (unlockAll (mutexUnlock <$> addrs) w) = onces w ∧
  txEnv (unlockAll (mutexUnlock <$> addrs) w) = txEnv w ∧
  held (unlockAll (mutexUnlock <$> addrs) w) = held w ∖ list_to_set addrs.
Proof.
  unfold unlockAll. rewrite <- fmap_reverse.
  assert (list_to_set addrs = list_to_set (C := gset Address) (reverse addrs)) as ->.
  { apply set_eq. intros a. rewrite !elem_of_list_to_set, elem_of_reverse. done. }
  apply foldl_mutexUnlock.
Qed.

(** When the loop of [SignTxMempool] returns, it has taken the lock of
    each input address, none of which was held, and the unlockers are the
    unlocks of these locks in input order. *)
Lemma lockInputs_returns trans inputs : ∀ i w w' signers unlockers,
  lockInputs trans i inputs w = (w', Returns (signers, unlockers)) →
  unlockers = mutexUnlock <$> (InputAddress <$> inputs) ∧
  NoDup (InputAddress <$> inputs) ∧
  (∀ a, a ∈ InputAddress <$> inputs → a ∉ held w) ∧
  onces w' = onces w ∧
  trace w' = trace w ++ (EvLock <$> (InputAddress <$> inputs)).
Proof.
  induction inputs as [|input inputs IH]; intros i w w' signers unlockers; simpl.
  - unfold_M. intros [= <- <- <-]. rewrite app_nil_r.
    split_and!; try done; [constructor|]. intros a Ha. by apply elem_of_nil in Ha.
  - unfold_M. unfold SequentialSigningAccountOf, Lock. unfold_M.
    destruct (MempoolAccounts trans (InputAddress input)) as [e|getter]; [done|]. simpl.
    destruct (decide (InputAddress input ∈ held w)) as [|Hfree]; [done|].
    destruct getter as [e|sa]; [done|]. unfold assign_sequence.
    match goal with |- context [lockInputs trans (S i) inputs ?w1] =>
      set (w1' := w1); destruct (lockInputs trans (S i) inputs w1')
        as [w2 [[signers' unlockers']|e|]] eqn:Eloop end; [|done..].
    intros [= <- <- <-].
    destruct (IH _ _ _ _ _ Eloop) as (Hu & Hnd & Hfresh & Ho & Ht).
    subst w1'. simpl in *. split_and!.
    + by rewrite Hu.
    + constructor; [|done]. intros Hin. apply Hfresh in Hin. set_solver.
    + intros a [->|Hin]%elem_of_cons; [done|]. apply Hfresh in Hin. set_solver.
    + done.
    + rewrite Ht. by rewrite <- app_assoc.
Qed.

Section TransactorProps.
Variable Envelope_Sign : Envelope → list SigningAccount → Envelope * option error.
Variable Tx_Hash : Tx → bytes.
Variable Tx_Rehash : Tx → Tx.
Variable Envelope_Validate : Envelope → option error.
Variable DecodeReceipt : bytes → error + Receipt.
Variable ExecutionReverted : Z.

Local Notation MaybeSignTxMempool := (MaybeSignTxMempool Envelope_Sign Tx_Rehash).
Local Notation SignTxMempool := (SignTxMempool Envelope_Sign).
Local Notation CheckTxSync :=
  (CheckTxSync Envelope_Sign Tx_Rehash Envelope_Validate DecodeReceipt).
Local Notation BroadcastTxSync :=
  (BroadcastTxSync Envelope_Sign Tx_Hash Tx_Rehash Envelope_Validate DecodeReceipt
     ExecutionReverted).

(** What [MaybeSignTxMempool] returns when it signs: a once-guard, on a
    fresh cell, around the unlocks of the input addresses. *)
Lemma MaybeSignTxMempool_signs trans w w' unlock :
  Signatories (txEnv w) = [] →
  MaybeSignTxMempool trans w = (w', Returns unlock) →
  let addrs := InputAddress <$> Inputs (Tx_ (txEnv w)) in
  ∃ cell,
    unlock = once_Do cell (unlockAll (mutexUnlock <$> addrs)) ∧
    onces w' !! cell = Some false ∧
    NoDup addrs.
Proof using Type.
  intros Hsig. unfold Transactor.MaybeSignTxMempool. rewrite Hsig. simpl.
  unfold Transactor.SignTxMempool, GetInputs, Sign. unfold_M.
  destruct (lockInputs trans 0 (Inputs (Tx_ (txEnv w))) w)
    as [w1 [[signers unlockers]|e|]] eqn:Eloop; [|done..].
  destruct (Envelope_Sign (txEnv w1) signers) as [env [e|]]; [done|]. simpl.
  intros [= <- <-].
  destruct (lockInputs_returns _ _ _ _ _ _ _ Eloop) as (-> & Hnd & _ & Ho & _).
  eexists. split_and!; [reflexivity| |done].
  simpl. rewrite lookup_app_r by done. by rewrite Nat.sub_diag.
Qed.

Lemma once_Do_done cell f w :
  onces w !! cell = Some true → once_Do cell f w = w.
Proof using Type. unfold once_Do. by intros ->. Qed.

(** C8.  The unlock that [MaybeSignTxMempool] returns when it signs is
    idempotent.  The first call releases the lock of each input address,
    once, last input first; a second call returns the world of the first
    unchanged, and so does any later call after steps that leave the
    [sync.Once] cells alone, as the wait for the commit and
    [UnsubscribeAll] between the eager and the deferred call in
    [BroadcastTxSync] do. *)
Theorem unlock_is_idempotent (trans : Transactor) (w w' : World) (unlock : UnlockFunc) :
  Signatories (txEnv w) = [] →
  MaybeSignTxMempool trans w = (w', Returns unlock) →
  let addrs := InputAddress <$> Inputs (Tx_ (txEnv w)) in
  unlock (unlock w') = unlock w' ∧
  trace (unlock w') = trace w' ++ (EvUnlock <$> reverse addrs) ∧
  trace (unlock (unlock w')) = trace w' ++ (EvUnlock <$> reverse addrs) ∧
  NoDup addrs ∧
  (∀ step : World → World,
     (∀ w0, onces (step w0) = onces w0) →
     unlock (step (unlock w')) = step (unlock w')).
Proof using Type.
  intros Hsig Hsign addrs.
  destruct (MaybeSignTxMempool_signs trans w w' unlock Hsig Hsign)
    as (cell & -> & Hcell & Hnd). fold addrs in Hnd |- *.
  assert (once_Do cell (unlockAll (mutexUnlock <$> addrs)) w' =
          unlockAll (mutexUnlock <$> addrs) (set_onces (<[cell := true]> (onces w')) w'))
    as Hfirst by (unfold once_Do; by rewrite Hcell).
  destruct (unlockAll_mutexes addrs (set_onces (<[cell := true]> (onces w')) w'))
    as (Ht & Ho & _ & _). simpl in Ht, Ho.
  assert (onces (once_Do cell (unlockAll (mutexUnlock <$> addrs)) w') !! cell = Some true)
    as Hdone.
  { rewrite Hfirst, Ho. apply list_lookup_insert_eq. by eapply lookup_lt_Some. }
  assert (once_Do cell (unlockAll (mutexUnlock <$> addrs))
            (once_Do cell (unlockAll (mutexUnlock <$> addrs)) w') =
          once_Do cell (unlockAll (mutexUnlock <$> addrs)) w') as Hsecond
    by by apply once_Do_done.
  split_and!.
  - done.
  - by rewrite Hfirst.
  - by rewrite Hsecond, Hfirst.
  - done.
  - intros step Hstep. apply once_Do_done. by rewrite Hstep.
Qed.

(** *** Envelopes that come signed *)

Lemma MaybeSignTxMempool_presigned trans w :
  Signatories (txEnv w) ≠ [] → MaybeSignTxMempool trans w = (w, Returns noop).
Proof using Type.
  intros Hsig. unfold Transactor.MaybeSignTxMempool.
  destruct (Signatories (txEnv w)); done.
Qed.

Lemma CheckTxSync_presigned trans w :
  Signatories (txEnv w) ≠ [] →
  txEnv (CheckTxSync trans w).1 = txEnv w ∧
  held (CheckTxSync trans w).1 = held w ∧
  onces (CheckTxSync trans w).1 = onces w ∧
  ((CheckTxSync trans w).1 = w ∧
     (Envelope_Validate (txEnv w) ≠ None ∨
      ∃ e, txEncoder trans (txEnv w) = inl e) ∨
   ∃ txBytes, trace (CheckTxSync trans w).1 = trace w ++ [EvCheckTx txBytes] ∧
      txEncoder trans (txEnv w) = inr txBytes ∧ Envelope_Validate (txEnv w) = None).
Proof using Type.
  intros Hsig. unfold Transactor.CheckTxSync. unfold_M.
  rewrite MaybeSignTxMempool_presigned by done.
  unfold Validate, EncodeTx, CheckTxSyncRaw, CheckTxAsyncRaw. unfold_M.
  destruct (Envelope_Validate (txEnv w)) as [e|] eqn:Ev; simpl.
  { split_and!; try done. left. split; [done|]. by left. }
  destruct (txEncoder trans (txEnv w)) as [e|txBytes] eqn:Ee; simpl.
  { split_and!; try done. left. split; [done|]. right. eauto. }
  destruct (checkTxAsync trans txBytes) as [e| |[resp|]|]; simpl;
    [| |destruct (ResponseCode resp =? TxExecutionSuccessCode);
        [destruct (DecodeReceipt (ResponseData resp))|]| |]; simpl;
    (split_and!; try done; right; eauto).
Qed.

(** C10.  For every envelope that carries at least one signatory,
    [MaybeSignTxMempool] returns a no-op unlock and leaves everything as it
    was: no lock is taken, no sequence assigned, no signature added, no
    hash recomputed.  So through the whole of [BroadcastTxSync] the
    envelope, the locks and the once cells stay as provided; the only
    calls on collaborators are the subscription for the hash of the
    envelope, the submission of its encoding, and the unsubscription; and
    when the subscription succeeds and the envelope validates and encodes,
    its encoding is what is submitted. *)
Theorem presigned_envelope_is_untouched (trans : Transactor) (w : World) :
  Signatories (txEnv w) ≠ [] →
  MaybeSignTxMempool trans w = (w, Returns noop) ∧
  (∀ w0, noop w0 = w0) ∧
  txEnv (BroadcastTxSync trans w).1 = txEnv w ∧
  held (BroadcastTxSync trans w).1 = held w ∧
  onces (BroadcastTxSync trans w).1 = onces w ∧
  ∃ evs,
    trace (BroadcastTxSync trans w).1 = trace w ++ evs ∧
    Forall (presigned_event Tx_Hash Envelope_Validate trans (txEnv w)) evs ∧
    ∀ txBytes,
      Emitter_Subscribe trans = None →
      Envelope_Validate (txEnv w) = None →
      txEncoder trans (txEnv w) = inr txBytes →
      EvCheckTx txBytes ∈ evs.
Proof using Type.
  intros Hsig. split; [by apply MaybeSignTxMempool_presigned|]. split; [done|].
  unfold Transactor.BroadcastTxSync. unfold_M.
  rewrite MaybeSignTxMempool_presigned by done.
  unfold Hash, Subscribe. unfold_M.
  destruct (Emitter_Subscribe trans) as [e|] eqn:Esub; simpl.
  { split_and!; try done. exists []. rewrite app_nil_r. split_and!; [done|constructor|done]. }
  set (w1 := log (EvSubscribe (Tx_Hash (Tx_ (txEnv w)))) w).
  destruct (CheckTxSync_presigned trans w1 Hsig) as (He & Hh & Ho & Hcases).
  destruct (CheckTxSync trans w1) as [w2 r] eqn:Ecs. simpl in *.
  assert (∃ evs2, trace w2 = trace w ++ EvSubscribe (Tx_Hash (Tx_ (txEnv w))) :: evs2 ∧
            Forall (presigned_event Tx_Hash Envelope_Validate trans (txEnv w)) evs2 ∧
            ∀ txBytes, Envelope_Validate (txEnv w) = None →
              txEncoder trans (txEnv w) = inr txBytes → EvCheckTx txBytes ∈ evs2)
    as (evs2 & Ht2 & Hall2 & Hsub2).
  { destruct Hcases as [[-> Hno]|(txBytes & Ht & Henc & Hval)].
    - exists []. split_and!; [done|constructor|].
      intros txBytes Hv Hen. destruct Hno as [?|[e ?]]; simpl in *; congruence.
    - exists [EvCheckTx txBytes]. split_and!.
      + rewrite Ht. simpl. by rewrite <- app_assoc.
      + constructor; [done|constructor].
      + intros bs _ Hen. simpl in Henc. assert (bs = txBytes) as -> by congruence.
        apply list_elem_of_here. }
  assert (∀ o : outcome TxExecution,
    let out := match o with
               | Blocks => (noop w2, Blocks)
               | _ => (noop (UnsubscribeAll (noop w2)), o)
               end in
    txEnv out.1 = txEnv w ∧ held out.1 = held w ∧ onces out.1 = onces w ∧
    ∃ evs, trace out.1 = trace w ++ evs ∧
      Forall (presigned_event Tx_Hash Envelope_Validate trans (txEnv w)) evs ∧
      ∀ txBytes, None = None (A := error) → Envelope_Validate (txEnv w) = None →
        txEncoder trans (txEnv w) = inr txBytes → EvCheckTx txBytes ∈ evs) as Hfin.
  { intros o. unfold noop, UnsubscribeAll, log. destruct o; simpl; (split_and!; [done..|]).
    - exists (EvSubscribe (Tx_Hash (Tx_ (txEnv w))) :: evs2 ++ [EvUnsubscribeAll]).
      rewrite Ht2. split_and!.
      + by rewrite <- app_assoc.
      + constructor; [done|]. apply Forall_app. split; [done|]. by repeat constructor.
      + intros bs _ Hv Hen. apply list_elem_of_further, elem_of_app. left. eauto.
    - exists (EvSubscribe (Tx_Hash (Tx_ (txEnv w))) :: evs2 ++ [EvUnsubscribeAll]).
      rewrite Ht2. split_and!.
      + by rewrite <- app_assoc.
      + constructor; [done|]. apply Forall_app. split; [done|]. by repeat constructor.
      + intros bs _ Hv Hen. apply list_elem_of_further, elem_of_app. left. eauto.
    - exists (EvSubscribe (Tx_Hash (Tx_ (txEnv w))) :: evs2).
      split_and!; [done|by constructor|].
      intros bs _ Hv Hen. apply list_elem_of_further. eauto. }
  destruct r as [receipt|e|]; simpl.
  - destruct (Emitter_out trans) as [|txe|]; simpl.
    + apply (Hfin (Fails (ErrWaitingForTx (ReceiptTxHash receipt)))).
    + destruct (CallError txe) as [callError|]; simpl.
      * destruct (decide (ErrorCode callError ≠ ExecutionReverted)); simpl.
        -- apply (Hfin (Fails (ErrExceptionDuringExecution callError))).
        -- apply (Hfin (Returns txe)).
      * apply (Hfin (Returns txe)).
    + apply (Hfin Blocks).
  - apply (Hfin (Fails e)).
  - apply (Hfin Blocks).
Qed.

(** The two calls in [BroadcastTxSync].  When the envelope came unsigned
    and signing gave it a signatory, every run of [BroadcastTxSync] that
    returns has released the lock of each input address exactly once: in
    the eager call when the mempool was reached, in the deferred call when
    the subscription failed before. *)
Lemma BroadcastTxSync_unlocks_once trans w w1 unlock :
  Signatories (txEnv w) = [] →
  MaybeSignTxMempool trans w = (w1, Returns unlock) →
  Signatories (txEnv w1) ≠ [] →
  (BroadcastTxSync trans w).2 ≠ Blocks →
  ∃ before after,
    trace (BroadcastTxSync trans w).1 =
      trace w1 ++ before
        ++ (EvUnlock <$> reverse (InputAddress <$> Inputs (Tx_ (txEnv w)))) ++ after ∧
    Forall (λ ev, ∀ a, ev ≠ EvUnlock a) (before ++ after).
Proof using Type.
  intros Hsig Hsign Hsigned.
  destruct (MaybeSignTxMempool_signs trans w w1 unlock Hsig Hsign)
    as (cell & -> & Hcell & _).
  set (addrs := InputAddress <$> Inputs (Tx_ (txEnv w))) in *.
  unfold Transactor.BroadcastTxSync. unfold_M. rewrite Hsign.
  remember (once_Do cell (unlockAll (mutexUnlock <$> addrs))) as u eqn:Hu.
  assert (∀ w0, onces w0 !! cell = Some false →
            trace (u w0) = trace w0 ++ (EvUnlock <$> reverse addrs) ∧
            onces (u w0) !! cell = Some true) as Hfirst.
  { intros w0 Hw0. subst u. unfold once_Do. rewrite Hw0.
    destruct (unlockAll_mutexes addrs (set_onces (<[cell := true]> (onces w0)) w0))
      as (Ht & Ho & _ & _). rewrite Ht, Ho. split; [done|].
    apply list_lookup_insert_eq. by eapply lookup_lt_Some. }
  assert (∀ w0, onces w0 !! cell = Some true → u w0 = w0) as Hlater
    by (intros w0 ?; subst u; by apply once_Do_done).
  clear Hu Hsign.
  unfold Hash, Subscribe. unfold_M.
  destruct (Emitter_Subscribe trans) as [e|]; simpl.
  { intros _. destruct (Hfirst w1 Hcell) as [Ht _]. exists [], []. rewrite Ht.
    split; [by rewrite !app_nil_r|constructor]. }
  set (w1' := log (EvSubscribe (Tx_Hash (Tx_ (txEnv w1)))) w1).
  destruct (CheckTxSync_presigned trans w1' Hsigned) as (_ & _ & Ho & Hcases).
  destruct (CheckTxSync trans w1') as [w2 r] eqn:Ecs. simpl in Ho, Hcases.
  assert (∃ evs, trace w2 = trace w1 ++ evs ∧ Forall (λ ev, ∀ a, ev ≠ EvUnlock a) evs)
    as (evs & Ht2 & Hevs).
  { destruct Hcases as [[-> _]|(txBytes & Ht & _)].
    - exists [EvSubscribe (Tx_Hash (Tx_ (txEnv w1)))]. split; [done|].
      by repeat constructor.
    - exists [EvSubscribe (Tx_Hash (Tx_ (txEnv w1))); EvCheckTx txBytes].
      split; [|by repeat constructor]. rewrite Ht. simpl. by rewrite <- app_assoc. }
  assert (onces w2 !! cell = Some false) as Hcell2 by by rewrite Ho.
  destruct (Hfirst w2 Hcell2) as [Htu Hdone].
  assert (∀ o : outcome TxExecution, o ≠ Blocks →
    ∃ before after,
      trace (u (UnsubscribeAll (u w2))) =
        trace w1 ++ before ++ (EvUnlock <$> reverse addrs) ++ after ∧
      Forall (λ ev, ∀ a, ev ≠ EvUnlock a) (before ++ after)) as Hfin.
  { intros o _. rewrite Hlater by done. unfold UnsubscribeAll, log. simpl.
    exists evs, [EvUnsubscribeAll]. rewrite Htu, Ht2. split.
    - by rewrite <- !app_assoc.
    - apply Forall_app. split; [done|]. by repeat constructor. }
  destruct r as [receipt|e|]; simpl.
  - destruct (Emitter_out trans) as [|txe|]; simpl.
    + intros _. by apply (Hfin (Fails (ErrWaitingForTx (ReceiptTxHash receipt)))).
    + destruct (CallError txe) as [callError|]; simpl.
      * destruct (decide (ErrorCode callError ≠ ExecutionReverted)); simpl;
          intros _; by apply (Hfin (Returns txe)).
      * intros _. by apply (Hfin (Returns txe)).
    + done.
  - intros _. by apply (Hfin (Fails e)).
  - done.
Qed.

(** *** The committed execution *)

(** C7.  When [BroadcastTxSync] has signed or passed the envelope,
    subscribed and had the envelope accepted by the mempool, and the
    committed [TxExecution] then arrives on the subscription: it returns an
    error if the execution carries a call error whose code is not
    [ExecutionReverted]; if it carries none, or a revert, the execution
    itself is returned, exception included, with a nil error.  Either way
    the subscription is dropped and the unlock called again on the way
    out. *)
Theorem BroadcastTxSync_on_commit (trans : Transactor) (w w1 w2 : World)
    (unlock : UnlockFunc) (checkTxReceipt : Receipt) (txe : TxExecution) :
  MaybeSignTxMempool trans w = (w1, Returns unlock) →
  Emitter_Subscribe trans = None →
  CheckTxSync trans (log (EvSubscribe (Tx_Hash (Tx_ (txEnv w1)))) w1)
    = (w2, Returns checkTxReceipt) →
  Emitter_out trans = CommitMessage txe →
  BroadcastTxSync trans w =
    (unlock (UnsubscribeAll (unlock w2)),
     match CallError txe with
     | Some callError =>
         if decide (ErrorCode callError = ExecutionReverted) then Returns txe
         else Fails (ErrExceptionDuringExecution callError)
     | None => Returns txe
     end).
Proof using Type.
  intros Hsign Hsub Hcheck Hout.
  unfold Transactor.BroadcastTxSync. unfold_M. rewrite Hsign.
  unfold Hash, Subscribe. unfold_M. rewrite Hsub. simpl. rewrite Hcheck, Hout.
  destruct (CallError txe) as [callError|]; simpl; [|done].
  destruct (decide (ErrorCode callError ≠ ExecutionReverted)) as [Hne|Heq];
    destruct (decide (ErrorCode callError = ExecutionReverted)); simpl; done.
Qed.

End TransactorProps.

(** *** Runs *)

Import Transactor.Run.

Local Notation run_MaybeSignTxMempool :=
  (Transactor.MaybeSignTxMempool sign rehash).
Local Notation run_CheckTxSync :=
  (Transactor.CheckTxSync sign rehash validate decodeReceipt).
Local Notation run_BroadcastTxSync :=
  (Transactor.BroadcastTxSync sign hash rehash validate decodeReceipt reverted).

(** An unsigned envelope through [BroadcastTxSync]: both inputs get the
    sequence after the mempool's, each lock is taken once and released
    once, and the locks are released before the subscription is
    dropped. *)
Example BroadcastTxSync_unsigned_run :
  let out := run_BroadcastTxSync (transactor (CommitMessage (execution None)))
               (world unsigned) in
  out.2 = Returns (execution None) ∧
  trace out.1 =
    [EvLock alice; EvLock bob;
     EvSign [ {| sa_Address := alice; sa_Sequence := 7 |};
              {| sa_Address := bob; sa_Sequence := 7 |} ];
     EvRehash;
     EvSubscribe (digest (Tx_ unsigned));
     EvCheckTx (digest (Tx_ unsigned));
     EvUnlock bob; EvUnlock alice;
     EvUnsubscribeAll] ∧
  Sequence <$> Inputs (Tx_ (txEnv out.1)) = [8; 8] ∧
  held out.1 = ∅.
Proof. vm_compute. done. Qed.

(** The test of the repository: a signed envelope, a mempool that
    accepts, an execution at height 35 on the subscription. *)
Example BroadcastTxSync_presigned_run :
  let out := run_BroadcastTxSync (transactor (CommitMessage (execution None)))
               (world presigned) in
  Height <$> (match out.2 with Returns txe => Some txe | _ => None end) = Some 35 ∧
  txEnv out.1 = presigned ∧
  trace out.1 =
    [EvSubscribe (digest (Tx_ presigned)); EvCheckTx (digest (Tx_ presigned));
     EvUnsubscribeAll].
Proof. vm_compute. done. Qed.

Example BroadcastTxSync_fault_run :
  (run_BroadcastTxSync (transactor (CommitMessage (execution (Some fault))))
     (world presigned)).2 = Fails (ErrExceptionDuringExecution fault).
Proof. vm_compute. done. Qed.

Lemma unlock_is_idempotent_witness :
  let trans := transactor CommitSilent in
  let out := run_MaybeSignTxMempool trans (world unsigned) in
  let unlock := match out.2 with Returns u => u | _ => noop end in
  let addrs := InputAddress <$> Inputs (Tx_ (txEnv (world unsigned))) in
  unlock (unlock out.1) = unlock out.1 ∧
  trace (unlock out.1) = trace out.1 ++ (EvUnlock <$> reverse addrs) ∧
  trace (unlock (unlock out.1)) = trace out.1 ++ (EvUnlock <$> reverse addrs) ∧
  NoDup addrs ∧
  (∀ step : World → World,
     (∀ w0, onces (step w0) = onces w0) →
     unlock (step (unlock out.1)) = step (unlock out.1)).
Proof.
  intros trans out unlock.
  apply (unlock_is_idempotent sign rehash trans (world unsigned) out.1 unlock).
  - reflexivity.
  - vm_compute. reflexivity.
Defined.

Lemma presigned_envelope_is_untouched_witness :
  let trans := transactor (CommitMessage (execution None)) in
  let w := world presigned in
  run_MaybeSignTxMempool trans w = (w, Returns noop) ∧
  (∀ w0, noop w0 = w0) ∧
  txEnv (run_BroadcastTxSync trans w).1 = txEnv w ∧
  held (run_BroadcastTxSync trans w).1 = held w ∧
  onces (run_BroadcastTxSync trans w).1 = onces w ∧
  ∃ evs,
    trace (run_BroadcastTxSync trans w).1 = trace w ++ evs ∧
    Forall (presigned_event hash validate trans (txEnv w)) evs ∧
    ∀ txBytes,
      Emitter_Subscribe trans = None →
      validate (txEnv w) = None →
      txEncoder trans (txEnv w) = inr txBytes →
      EvCheckTx txBytes ∈ evs.
Proof.
  intros trans w.
  apply (presigned_envelope_is_untouched sign hash rehash validate decodeReceipt reverted
           trans w).
  vm_compute. discriminate.
Defined.

Lemma BroadcastTxSync_on_commit_witness :
  let txe := execution (Some revert) in
  let trans := transactor (CommitMessage txe) in
  let w := world presigned in
  let w2 := (run_CheckTxSync trans (log (EvSubscribe (hash (Tx_ (txEnv w)))) w)).1 in
  run_BroadcastTxSync trans w =
    (noop (UnsubscribeAll (noop w2)),
     match CallError txe with
     | Some callError =>
         if decide (ErrorCode callError = reverted) then Returns txe
         else Fails (ErrExceptionDuringExecution callError)
     | None => Returns txe
     end).
Proof.
  intros txe trans w w2.
  apply (BroadcastTxSync_on_commit sign hash rehash validate decodeReceipt reverted
           trans w w w2 noop {| ReceiptTxHash := digest (Tx_ presigned) |} txe).
  - reflexivity.
  - reflexivity.
  - vm_compute. reflexivity.
  - reflexivity.
Defined.

End TransactorProps.
